(** * snap-gpx-track-to-wpts: the matching and snapping core of [cli.py]

    A shallow embedding of [src/snap_gpx_track_to_wpts/cli.py], the
    properties of it that the specification states, and further properties of
    its scans, its runs and its command line.

    Numbers.  Python's [float] is IEEE 754 binary64, which is Rocq's
    primitive [float]: [+], [-], [*], [/], [sqrt] and the comparisons below are
    the very operations CPython performs.  The integers the source mixes in
    ([0], [EARTH_RADIUS], the [2] of [dlat / 2]) are exactly representable and
    Python converts them before operating, so they are written as floats.
    List indices are [nat].

    The C library.  [math.sin], [math.cos] and [math.asin] call the platform's
    libm, which is not part of the repository: its three functions are the
    fields of the class [Libm], every definition takes an instance, and every
    theorem holds for all instances unless it names one.

    Exceptions.  A Python exception is the [Raise] case of [result]. *)

From Stdlib Require Import Floats ZArith Bool Lia.
From stdpp Require Import base option list sorting strings pretty.

Set Warnings "-inexact-float".
Set Default Proof Using "Type*".

(** ** Exceptions *)

Inductive exn : Set :=
  | ValueError      (* "math domain error" *)
  | OverflowError   (* float ** 2 out of range *)
  | IndexError.     (* list index out of range *)

Inductive result (A : Type) : Type :=
  | Ok (a : A)
  | Raise (e : exn).
Arguments Ok {A} a.
Arguments Raise {A} e.

#[global] Instance result_ret : MRet result := @Ok.
#[global] Instance result_bind : MBind result := fun A B f m =>
  match m with
  | Ok a => f a
  | Raise e => Raise e
  end.

(** ** The [math] module *)

Class Libm : Type := {
  m_sin : float -> float;
  m_cos : float -> float;
  m_asin : float -> float
}.

(** CPython's [math_1] (Modules/mathmodule.c), the wrapper around every
    one-argument libm call: a NaN result from a non-NaN argument, or an
    infinite result from a finite argument, is "math domain error". *)
Definition math_1 (f : float -> float) (x : float) : result float :=
  let r := f x in
  if is_nan r && negb (is_nan x) then Raise ValueError
  else if is_infinity r && is_finite x then Raise ValueError
  else Ok r.

Section Math.
Context {L : Libm}.

Definition math_sin : float -> result float := math_1 m_sin.
Definition math_cos : float -> result float := math_1 m_cos.
Definition math_asin : float -> result float := math_1 m_asin.
End Math.

(** [math.sqrt] is C's [sqrt], which IEEE 754 rounds correctly. *)
Definition math_sqrt : float -> result float := math_1 PrimFloat.sqrt.

(** [math.radians(x)] is [x * (pi / 180)], the constant folded in binary64. *)
Definition degToRad : float := Eval vm_compute in (0x1.921fb54442d18p+1 / 180)%float.
Definition math_radians (x : float) : float := (x * degToRad)%float.

(** [x ** 2] on floats ([float_pow]): the square, OverflowError when it
    overflows from a finite [x]. *)
Definition pow2 (x : float) : result float :=
  let r := (x * x)%float in
  if is_infinity r && is_finite x then Raise OverflowError else Ok r.

(** Two-argument [min] and [max]: the first argument stays unless the second
    is strictly smaller (resp. larger). *)
Definition py_min (a b : float) : float := if (b <? a)%float then b else a.
Definition py_max (a b : float) : float := if (a <? b)%float then b else a.

(** [l[i]] for a non-negative [i]. *)
Definition py_index {A} (l : list A) (i : nat) : result A :=
  match l !! i with
  | Some x => Ok x
  | None => Raise IndexError
  end.

(** [l.insert(i, x)] for a non-negative [i]: past the end it appends. *)
Definition py_insert {A} (i : nat) (x : A) (l : list A) : list A :=
  take i l ++ x :: drop i l.

(** ** Data model (the part of gpxpy's classes the program reads) *)

(** A track point: position, and the attributes the program never reads
    but must carry (elevation, time, and the remaining optional fields and
    extensions as name/value pairs). *)
Record GPXTrackPoint : Type := {
  latitude : float;
  longitude : float;
  elevation : option float;
  time : option Z;
  other : list (string * string)
}.

Record GPXWaypoint : Type := {
  wpt_latitude : float;
  wpt_longitude : float
}.

Record GPXTrackSegment : Type := { points : list GPXTrackPoint }.
Record GPXTrack : Type := { segments : list GPXTrackSegment }.
Record GPX : Type := { waypoints : list GPXWaypoint; tracks : list GPXTrack }.

(** ** cli.py *)

Definition EARTH_RADIUS : float := 6371000%float.

Section Cli.
Context {L : Libm}.

(** Lines 13-19.  Operands are evaluated left to right, so the first
    failing call decides the exception. *)
Definition haversine_term (lat1 lon1 lat2 lon2 : float) : result float :=
  let rlat1 := math_radians lat1 in
  let rlon1 := math_radians lon1 in
  let rlat2 := math_radians lat2 in
  let rlon2 := math_radians lon2 in
  let dlat := (rlat2 - rlat1)%float in
  let dlon := (rlon2 - rlon1)%float in
  s1 ← math_sin (dlat / 2)%float;
  q1 ← pow2 s1;
  c1 ← math_cos rlat1;
  c2 ← math_cos rlat2;
  s2 ← math_sin (dlon / 2)%float;
  q2 ← pow2 s2;
  Ok (q1 + c1 * c2 * q2)%float.

Definition haversine (lat1 lon1 lat2 lon2 : float) : result float :=
  a ← haversine_term lat1 lon1 lat2 lon2;
  r ← math_sqrt a;
  s ← math_asin r;
  Ok (2 * EARTH_RADIUS * s)%float.

(** Lines 22-44. *)
Definition project_onto_segment (wlat wlon alat alon blat blon : float)
  : result (float * float * float) :=
  cos_lat ← math_cos (math_radians ((alat + blat) / 2)%float);
  let ax := (alon * cos_lat)%float in
  let ay := alat in
  let bx := (blon * cos_lat)%float in
  let by_ := blat in
  let wx := (wlon * cos_lat)%float in
  let wy := wlat in
  let dx := (bx - ax)%float in
  let dy := (by_ - ay)%float in
  let len_sq := (dx * dx + dy * dy)%float in
  if (len_sq =? 0)%float then Ok (alat, alon, 0%float)
  else
    let t := (((wx - ax) * dx + (wy - ay) * dy) / len_sq)%float in
    let t := py_max 0 (py_min 1 t) in
    let plat := (alat + t * (blat - alat))%float in
    let plon := (alon + t * (blon - alon))%float in
    Ok (plat, plon, t).

(** The five [best_*] variables of [find_closest_on_segment]. *)
Record Best : Type := {
  best_dist : float;
  best_seg_idx : nat;
  best_plat : float;
  best_plon : float;
  best_t : float
}.

Definition best_init : Best :=
  {| best_dist := infinity; best_seg_idx := 0;
     best_plat := 0; best_plon := 0; best_t := 0 |}.

(** Lines 66-79: the loop over [range(len(points) - 1)], entered at index
    [i] with [pts = points[i:]]. *)
Fixpoint scan_edges (wpt : GPXWaypoint) (i : nat) (pts : list GPXTrackPoint)
    (best : Best) : result Best :=
  match pts with
  | a :: ((b :: _) as rest) =>
      '(plat, plon, t) ← project_onto_segment
          (wpt_latitude wpt) (wpt_longitude wpt)
          (latitude a) (longitude a) (latitude b) (longitude b);
      d ← haversine (wpt_latitude wpt) (wpt_longitude wpt) plat plon;
      scan_edges wpt (S i) rest
        (if (d <? best_dist best)%float
         then {| best_dist := d; best_seg_idx := i;
                 best_plat := plat; best_plon := plon; best_t := t |}
         else best)
  | _ => Ok best
  end.

(** The tuple [find_closest_on_segment] returns, named as its docstring
    names the components. *)
Record Closest : Type := {
  min_dist : float;
  seg_idx : nat;
  projected_lat : float;
  projected_lon : float;
  t_param : float;
  vertex_idx : option nat
}.

Definition TOLERANCE : float := 0.05%float.

(** Lines 89-107. *)
Definition classify_vertex (points : list GPXTrackPoint) (best : Best)
  : result (option nat) :=
  if (best_t best <? 1e-9)%float then Ok (Some (best_seg_idx best))
  else if (1 - 1e-9 <? best_t best)%float then Ok (Some (best_seg_idx best + 1))
  else
    pa ← py_index points (best_seg_idx best);
    d_a ← haversine (best_plat best) (best_plon best) (latitude pa) (longitude pa);
    pb ← py_index points (best_seg_idx best + 1);
    d_b ← haversine (best_plat best) (best_plon best) (latitude pb) (longitude pb);
    if (d_a <? TOLERANCE)%float then Ok (Some (best_seg_idx best))
    else if (d_b <? TOLERANCE)%float then Ok (Some (best_seg_idx best + 1))
    else Ok None.

Definition closest_of (best : Best) (v : option nat) : Closest :=
  {| min_dist := best_dist best; seg_idx := best_seg_idx best;
     projected_lat := best_plat best; projected_lon := best_plon best;
     t_param := best_t best; vertex_idx := v |}.

(** Lines 47-107. *)
Definition find_closest_on_segment (wpt : GPXWaypoint)
    (points : list GPXTrackPoint) : result Closest :=
  match points with
  | [] => Ok {| min_dist := infinity; seg_idx := 0; projected_lat := 0;
                projected_lon := 0; t_param := 0; vertex_idx := None |}
  | _ =>
      best ← scan_edges wpt 0 points best_init;
      let classify :=
        v ← classify_vertex points best;
        Ok (closest_of best v) in
      match points with
      | [p] =>
          d ← haversine (wpt_latitude wpt) (wpt_longitude wpt)
                (latitude p) (longitude p);
          if (d <? best_dist best)%float
          then Ok {| min_dist := d; seg_idx := 0;
                     projected_lat := latitude p; projected_lon := longitude p;
                     t_param := 0; vertex_idx := Some 0 |}
          else classify
      | _ => classify
      end
  end.

(** Lines 110-122: the loop over [enumerate(segment.points)], entered at
    index [i] with [pts = points[i:]]. *)
Fixpoint scan_vertices (wpt : GPXWaypoint) (i : nat) (pts : list GPXTrackPoint)
    (best : float * nat) : result (float * nat) :=
  match pts with
  | [] => Ok best
  | pt :: rest =>
      d ← haversine (wpt_latitude wpt) (wpt_longitude wpt)
            (latitude pt) (longitude pt);
      scan_vertices wpt (S i) rest (if (d <? best.1)%float then (d, i) else best)
  end.

Definition find_closest_vertex (wpt : GPXWaypoint) (points : list GPXTrackPoint)
  : result (float * nat) :=
  scan_vertices wpt 0 points (infinity, 0).

End Cli.

(** [x or 0] on a float: a float is false exactly when it equals zero, so
    [+0] and [-0] give the [0] on the right, and every other float, a NaN
    included, gives itself. *)
Definition py_or_0 (x : float) : float :=
  if (x =? 0)%float then 0%float else x.

(** Lines 125-132.  gpxpy's [GPXTrackPoint.__init__] stores [latitude or 0]
    and [longitude or 0], and leaves every other field at [None]. *)
Definition make_bare_point (lat lon : float) : GPXTrackPoint :=
  {| latitude := py_or_0 lat; longitude := py_or_0 lon;
     elevation := None; time := None; other := [] |}.

Definition duplicate_point (pt : GPXTrackPoint) : GPXTrackPoint :=
  {| latitude := latitude pt; longitude := longitude pt;
     elevation := elevation pt; time := time pt; other := other pt |}.

(** ** The snap engine *)

(** One pending insertion: [(insert_index, [points_to_insert])]. *)
Definition insertion : Type := nat * list GPXTrackPoint.

(** [insertions.sort(key=lambda x: x[0], reverse=True)]: descending by index;
    Python's sort is stable, also under [reverse=True], so entries with equal
    index keep their order.  There is one such list; it is built here by
    insertion. *)
Fixpoint insert_desc (x : insertion) (l : list insertion) : list insertion :=
  match l with
  | [] => [x]
  | y :: l' => if (y.1 <=? x.1)%nat then x :: l else y :: insert_desc x l'
  end.

Definition sort_desc (l : list insertion) : list insertion :=
  foldr insert_desc [] l.

(** Lines 172-174. *)
Definition insert_points (idx : nat) (pts : list GPXTrackPoint)
    (l : list GPXTrackPoint) : list GPXTrackPoint :=
  foldl (fun acc p => py_insert idx p acc) l (reverse pts).

Definition apply_insertions (ins : list insertion) (l : list GPXTrackPoint)
  : list GPXTrackPoint :=
  foldl (fun acc x => insert_points x.1 x.2 acc) l ins.

Section Snap.
Context {L : Libm}.

(** Lines 147-168, one iteration of the loop over the waypoints: [None] is
    [continue]. *)
Definition add_insertion (maxdist : float) (points : list GPXTrackPoint)
    (wpt : GPXWaypoint) : result (option insertion) :=
  c ← find_closest_on_segment wpt points;
  if (maxdist <? min_dist c)%float then Ok None
  else
    match vertex_idx c with
    | Some v =>
        orig ← py_index points v;
        let dup := duplicate_point orig in
        let wpt_pt := make_bare_point (wpt_latitude wpt) (wpt_longitude wpt) in
        Ok (Some (v + 1, [wpt_pt; dup]))
    | None =>
        let proj := make_bare_point (projected_lat c) (projected_lon c) in
        let proj_dup := make_bare_point (projected_lat c) (projected_lon c) in
        let wpt_pt := make_bare_point (wpt_latitude wpt) (wpt_longitude wpt) in
        Ok (Some (seg_idx c + 1, [proj; wpt_pt; proj_dup]))
    end.

(** Lines 144-168: every waypoint is matched against the same, still
    unmodified [points]. *)
Fixpoint collect_insertions (maxdist : float) (points : list GPXTrackPoint)
    (wpts : list GPXWaypoint) : result (list insertion) :=
  match wpts with
  | [] => Ok []
  | wpt :: rest =>
      o ← add_insertion maxdist points wpt;
      ins ← collect_insertions maxdist points rest;
      Ok (match o with Some x => x :: ins | None => ins end)
  end.

(** Lines 142-174 for one segment. *)
Definition process_add_segment (maxdist : float) (wpts : list GPXWaypoint)
    (points : list GPXTrackPoint) : result (list GPXTrackPoint) :=
  ins ← collect_insertions maxdist points wpts;
  Ok (apply_insertions (sort_desc ins) points).

(** Lines 186-190, one iteration: the two assignments to
    [segment.points[vidx]]. *)
Definition move_waypoint (maxdist : float) (points : list GPXTrackPoint)
    (wpt : GPXWaypoint) : result (list GPXTrackPoint) :=
  '(dist, vidx) ← find_closest_vertex wpt points;
  if (maxdist <? dist)%float then Ok points
  else
    p ← py_index points vidx;
    Ok (<[vidx := {| latitude := wpt_latitude wpt;
                     longitude := wpt_longitude wpt;
                     elevation := elevation p; time := time p;
                     other := other p |}]> points).

(** Lines 185-190 for one segment: each waypoint sees the points as the
    previous ones left them. *)
Fixpoint process_move_segment (maxdist : float) (wpts : list GPXWaypoint)
    (points : list GPXTrackPoint) : result (list GPXTrackPoint) :=
  match wpts with
  | [] => Ok points
  | wpt :: rest =>
      points' ← move_waypoint maxdist points wpt;
      process_move_segment maxdist rest points'
  end.

(** The two loops over [gpx_data.tracks] and [track.segments], with the
    per-segment body [f]. *)
Fixpoint for_each {A} (f : A -> result A) (l : list A) : result (list A) :=
  match l with
  | [] => Ok []
  | x :: rest => y ← f x; ys ← for_each f rest; Ok (y :: ys)
  end.

Definition for_each_segment
    (f : list GPXTrackPoint -> result (list GPXTrackPoint)) (gpx_data : GPX)
  : result GPX :=
  ts ← for_each (fun track =>
          ss ← for_each (fun segment =>
                  pts ← f (points segment); Ok {| points := pts |})
                (segments track);
          Ok {| segments := ss |})
        (tracks gpx_data);
  Ok {| waypoints := waypoints gpx_data; tracks := ts |}.

(** Lines 135-174.  The function mutates [gpx_data] in place and returns
    [None]; the model returns the document as mutated. *)
Definition process_add (gpx_data : GPX) (maxdist : float) : result GPX :=
  match waypoints gpx_data with
  | [] => Ok gpx_data
  | wpts => for_each_segment (process_add_segment maxdist wpts) gpx_data
  end.

(** Lines 177-190. *)
Definition process_move (gpx_data : GPX) (maxdist : float) : result GPX :=
  match waypoints gpx_data with
  | [] => Ok gpx_data
  | wpts => for_each_segment (process_move_segment maxdist wpts) gpx_data
  end.

End Snap.

(** ** The command line

    [main] from line 213 on: the arguments are parsed and the input file is
    read and parsed (lines 194-211); what follows decides what is printed and
    written.  The model returns the effects in the order the code performs
    them and how the run ends.  [-d] has the default [100], [-m] one of its two
    choices, [-f] is absent, given without a name (the empty string) or given
    with a name.  That [open(outfile, "w")] can fail is not modelled. *)

Inductive Mode : Set := Add | Move.

(** What [parser.parse_args()] returns. *)
Record Args : Type := {
  arg_i : string;
  arg_d : float;
  arg_m : Mode;
  arg_f : option string;
  arg_overwrite : bool
}.

(** What [main] uses of gpxpy, [os.path] and the formatting of a float in an
    f-string. *)
Class Host : Type := {
  to_xml : GPX -> string;
  splitext : string -> string * string;
  float_str : float -> string
}.

(** [int(x)] on a float: truncation, with the two exceptions of CPython. *)
Definition py_int (x : float) : result Z :=
  match Prim2SF x with
  | S754_nan => Raise ValueError
  | S754_infinity _ => Raise OverflowError
  | S754_zero _ => Ok 0%Z
  | S754_finite s m e =>
      let a := Z.shiftl (Z.pos m) e in
      Ok (if s then - a else a)%Z
  end.

(** [x == n] for a float and an int: the exact comparison of the values. *)
Definition float_eq_int (x : float) (n : Z) : bool :=
  match Prim2SF x with
  | S754_nan | S754_infinity _ => false
  | S754_zero _ => (n =? 0)%Z
  | S754_finite s m e =>
      let v := (if s then Z.neg m else Z.pos m) in
      if (0 <=? e)%Z then (v * 2 ^ e =? n)%Z else (v =? n * 2 ^ (- e))%Z
  end.

(** What a run does to the outside: a line on stderr, text on stdout, a file
    written. *)
Inductive Effect : Type :=
  | PrintErr (line : string)
  | WriteOut (text : string)
  | WriteFile (path text : string).

(** How a run ends: [main] returns, [sys.exit(code)], or an exception nobody
    catches. *)
Inductive Exit : Type :=
  | Return
  | SysExit (code : Z)
  | Uncaught (e : exn).

Section Main.
Context {L : Libm} {H : Host}.

(** Lines 229-234: the name of the output file for [-f] given as [f]. *)
Definition output_name (args : Args) (f : string) : result string :=
  match f with
  | EmptyString =>
      let '(base, _) := splitext (arg_i args) in
      n ← py_int (arg_d args);
      let dist := if float_eq_int (arg_d args) n then pretty n
                  else float_str (arg_d args) in
      Ok (base +:+ "_snapped_" +:+ dist +:+ ".gpx")
  | _ => Ok f
  end.

(** Lines 213-242.  [path_exists] is [os.path.exists] at the time of the
    call. *)
Definition main (args : Args) (gpx_data : GPX) (path_exists : string -> bool)
  : list Effect * Exit :=
  match tracks gpx_data with
  | [] => ([PrintErr "Warning: no tracks found in input file."], Return)
  | _ =>
    match waypoints gpx_data with
    | [] => ([PrintErr "Warning: no waypoints found in input file."], Return)
    | _ =>
      match (match arg_m args with
             | Add => process_add gpx_data (arg_d args)
             | Move => process_move gpx_data (arg_d args)
             end) with
      | Raise e => ([], Uncaught e)
      | Ok gpx' =>
          let xml := to_xml gpx' in
          match arg_f args with
          | None => ([WriteOut xml], Return)
          | Some f =>
              match output_name args f with
              | Raise e => ([], Uncaught e)
              | Ok outfile =>
                  if path_exists outfile && negb (arg_overwrite args)
                  then ([PrintErr ("Error: " +:+ outfile +:+
                          " already exists. Use --overwrite to replace it.")],
                        SysExit 1)
                  else ([WriteFile outfile xml;
                         PrintErr ("Output written to " +:+ outfile)], Return)
              end
          end
      end
    end
  end.
End Main.

(** ** What every libm does, and two instances for running the functions *)

(** Properties of [sin], [cos] and [asin] that C (Annex F) and every libm
    guarantee: exact values at zero, odd symmetry and range of the sine, range
    of the cosine, sign and range ([pi / 2 < 2]) of the arc sine. *)
Class LibmLaws (L : Libm) : Prop := {
  sin_zero : m_sin 0 = 0%float;
  sin_odd : forall x, m_sin (- x)%float = (- m_sin x)%float;
  sin_bounded : forall x,
    is_nan (m_sin x) = true \/ (abs (m_sin x) <=? 1)%float = true;
  cos_bounded : forall x,
    is_finite x = true -> (abs (m_cos x) <=? 1)%float = true;
  asin_zero : m_asin 0 = 0%float;
  asin_nonneg : forall x,
    (0 <=? x)%float = true ->
    is_nan (m_asin x) = true \/ (0 <=? m_asin x)%float = true;
  asin_bounded : forall x,
    is_nan (m_asin x) = true \/ (abs (m_asin x) <=? 2)%float = true
}.

(** Below [2^-26] in magnitude glibc, musl and fdlibm all return [sin x = x]
    and [asin x = x], and below [2^-27] [cos x = 1] (the next term of each
    series is under half an ulp).  [small_angle] is the C library on that
    range: there the definitions above compute, bit for bit, what CPython
    computes.  Outside it the sine and arc sine are NaN, so a use beyond the
    range shows as ValueError. *)
Definition small_sin (x : float) : float :=
  if (abs x <? 0x1p-26)%float then x else nan.

Definition small_angle : Libm :=
  {| m_sin := small_sin; m_cos := fun _ => 1%float; m_asin := small_sin |}.

(** The correctly rounded sines and cosines at the four arguments
    [haversine(135, 0, 45, 180)] reaches (the floats nearest -pi/4, pi/2,
    3pi/4 and pi/4), as glibc returns them; [small_angle] elsewhere. *)
Definition quadrant_sin (x : float) : float :=
  if (x =? -0x1.921fb54442d18p-1)%float then (-0x1.6a09e667f3bccp-1)%float
  else if (x =? 0x1.921fb54442d18p+0)%float then 1%float
  else small_sin x.

Definition quadrant_cos (x : float) : float :=
  if (x =? 0x1.2d97c7f3321d2p+1)%float then (-0x1.6a09e667f3bccp-1)%float
  else if (x =? 0x1.921fb54442d18p-1)%float then 0x1.6a09e667f3bcdp-1%float
  else 1%float.

Definition quadrants : Libm :=
  {| m_sin := quadrant_sin; m_cos := quadrant_cos; m_asin := small_sin |}.

(** ** Auxiliary definitions for the statements and proofs *)

(** Shapes of a float, read off its specification [Prim2SF]. *)
Definition sf_nan (a : spec_float) : bool :=
  match a with S754_nan => true | _ => false end.
Definition sf_inf (a : spec_float) : bool :=
  match a with S754_infinity _ => true | _ => false end.
Definition sf_finite (a : spec_float) : bool :=
  match a with S754_zero _ | S754_finite _ _ _ => true | _ => false end.

(** [a] is not NaN and has sign [s]. *)
Definition sf_signed (s : bool) (a : spec_float) : Prop :=
  match a with
  | S754_zero s' | S754_infinity s' | S754_finite s' _ _ => s' = s
  | S754_nan => False
  end.
(** [a] is [+0], [-0], positive or [+infinity]. *)
Definition sf_nonneg (a : spec_float) : bool :=
  match a with
  | S754_zero _ => true
  | S754_finite s _ _ | S754_infinity s => negb s
  | S754_nan => false
  end.
(** The exponent of a finite non-zero float, [k] for the others. *)
Definition sf_exp (k : Z) (a : spec_float) : Z :=
  match a with S754_finite _ _ e => e | _ => k end.

(** The attributes of a track point other than its position. *)
Definition attributes (p : GPXTrackPoint)
  : option float * option Z * list (string * string) :=
  (elevation p, time p, other p).

(** [p] moved to the position of [wpt], everything else kept. *)
Definition moved_to (wpt : GPXWaypoint) (p : GPXTrackPoint) : GPXTrackPoint :=
  {| latitude := wpt_latitude wpt; longitude := wpt_longitude wpt;
     elevation := elevation p; time := time p; other := other p |}.

(** [best] was set by the iteration of lines 67-79 for the edge
    [best_seg_idx best] of [points]: its fields are that edge's projection of
    the waypoint and the distance to it. *)
Definition edge_result {L : Libm} (wpt : GPXWaypoint)
    (points : list GPXTrackPoint) (best : Best) : Prop :=
  exists a b,
    points !! best_seg_idx best = Some a /\
    points !! S (best_seg_idx best) = Some b /\
    project_onto_segment (wpt_latitude wpt) (wpt_longitude wpt)
      (latitude a) (longitude a) (latitude b) (longitude b)
      = Ok (best_plat best, best_plon best, best_t best) /\
    haversine (wpt_latitude wpt) (wpt_longitude wpt) (best_plat best) (best_plon best)
      = Ok (best_dist best).

(** The outcome of lines 89-107 as a relation between what
    [find_closest_on_segment] returns and the points. *)
Definition classified {L : Libm} (points : list GPXTrackPoint) (c : Closest) : Prop :=
  if (t_param c <? 1e-9)%float then vertex_idx c = Some (seg_idx c)
  else if (1 - 1e-9 <? t_param c)%float then vertex_idx c = Some (seg_idx c + 1)
  else
    exists pa pb d_a d_b,
      points !! seg_idx c = Some pa /\
      points !! (seg_idx c + 1) = Some pb /\
      haversine (projected_lat c) (projected_lon c) (latitude pa) (longitude pa) = Ok d_a /\
      haversine (projected_lat c) (projected_lon c) (latitude pb) (longitude pb) = Ok d_b /\
      vertex_idx c =
        if (d_a <? TOLERANCE)%float then Some (seg_idx c)
        else if (d_b <? TOLERANCE)%float then Some (seg_idx c + 1)
        else None.

(** The insertions of [l] at index [k], in the order of [l]. *)
Definition at_index (k : nat) (l : list insertion) : list insertion :=
  filter (fun y => y.1 = k) l.

(** The distance the loop of [find_closest_vertex] computes for a point. *)
Definition vertex_dist {L : Libm} (wpt : GPXWaypoint) (pt : GPXTrackPoint)
  : result float :=
  haversine (wpt_latitude wpt) (wpt_longitude wpt) (latitude pt) (longitude pt).

(** [best = (dist, idx)] is what the loop of [find_closest_vertex] holds
    after the points [l]: every point's distance evaluates, none is below
    [dist], every point before [idx] is not even equal to it, and [dist] is
    the initial infinity or the distance of the point at [idx]. *)
Definition nearest_of {L : Libm} (wpt : GPXWaypoint) (l : list GPXTrackPoint)
    (best : float * nat) : Prop :=
  (forall j p, l !! j = Some p ->
     exists dj, vertex_dist wpt p = Ok dj /\
       (dj <? best.1)%float = false /\
       (j < best.2 -> (dj <=? best.1)%float = false)%nat) /\
  (best = (infinity, 0%nat) \/
   exists p, l !! best.2 = Some p /\ vertex_dist wpt p = Ok best.1).

(** The distance the loop of [find_closest_on_segment] computes for the edge
    from [a] to [b]: to the projection of the waypoint on it. *)
Definition edge_dist {L : Libm} (wpt : GPXWaypoint) (a b : GPXTrackPoint)
  : result float :=
  '(plat, plon, _) ← project_onto_segment (wpt_latitude wpt) (wpt_longitude wpt)
      (latitude a) (longitude a) (latitude b) (longitude b);
  haversine (wpt_latitude wpt) (wpt_longitude wpt) plat plon.

(** The same for the edges: among the first [i] edges of [points] none has a
    distance below [dist], and none before [idx] one equal to it. *)
Definition nearest_edge {L : Libm} (wpt : GPXWaypoint) (points : list GPXTrackPoint)
    (i : nat) (dist : float) (idx : nat) : Prop :=
  forall k a b, (k < i)%nat -> points !! k = Some a -> points !! S k = Some b ->
    exists dk, edge_dist wpt a b = Ok dk /\
      (dk <? dist)%float = false /\
      (k < idx -> (dk <=? dist)%float = false)%nat.

(** [p'] is [p], or [p] moved to one of the waypoints. *)
Definition moved_within (wpts : list GPXWaypoint) (p p' : GPXTrackPoint) : Prop :=
  p' = p \/ exists w, w ∈ wpts /\ p' = moved_to w p.

(** Where a point of the insertion for [wpt] comes from: it is one of the
    points, a bare point at the waypoint, or a bare point at the projection. *)
Definition inserted_for {L : Libm} (points : list GPXTrackPoint) (wpt : GPXWaypoint)
    (p : GPXTrackPoint) : Prop :=
  p ∈ points \/
  p = make_bare_point (wpt_latitude wpt) (wpt_longitude wpt) \/
  exists c, find_closest_on_segment wpt points = Ok c /\
    p = make_bare_point (projected_lat c) (projected_lon c).

(** Lines 220-223: the run [main] makes. *)
Definition processed {L : Libm} (args : Args) (gpx_data : GPX) : result GPX :=
  match arg_m args with
  | Add => process_add gpx_data (arg_d args)
  | Move => process_move gpx_data (arg_d args)
  end.

(** ** Sample data

    A segment of two points 17.8 cm apart on the equator, with attributes, and
    waypoints about 1.1 cm north of its middle, of its first point and far
    away.  All angles stay in the range of [small_angle]. *)
Definition sample_p0 : GPXTrackPoint :=
  {| latitude := 0; longitude := 0; elevation := Some 100%float;
     time := Some 1700000000%Z; other := [("name", "start")] |}.
Definition sample_p1 : GPXTrackPoint :=
  {| latitude := 0; longitude := 1.6e-6; elevation := Some 101%float;
     time := Some 1700000060%Z; other := [] |}.
Definition sample_points : list GPXTrackPoint := [sample_p0; sample_p1].
Definition wpt_middle : GPXWaypoint :=
  {| wpt_latitude := 1e-7; wpt_longitude := 0.8e-6 |}.
Definition wpt_start : GPXWaypoint :=
  {| wpt_latitude := 1e-7; wpt_longitude := 0 |}.
Definition wpt_far : GPXWaypoint :=
  {| wpt_latitude := 4e-7; wpt_longitude := 0 |}.
(** A waypoint on the first point, its latitude the negative zero. *)
Definition wpt_negative_zero : GPXWaypoint :=
  {| wpt_latitude := - 0; wpt_longitude := 0 |}.

(** A document with that segment and an empty one. *)
Definition sample_gpx : GPX :=
  {| waypoints := [wpt_middle; wpt_start; wpt_far];
     tracks := [{| segments := [{| points := sample_points |}; {| points := [] |}] |}] |}.

(** A host for running [main]: the XML is the number of tracks, a path has no
    extension, a float prints as [x]. *)
Definition sample_host : Host :=
  {| to_xml := fun gpx => pretty (length (tracks gpx));
     splitext := fun s => (s, EmptyString);
     float_str := fun _ => "x" |}.

Definition sample_args : Args :=
  {| arg_i := "in.gpx"; arg_d := 100; arg_m := Add; arg_f := Some "out.gpx";
     arg_overwrite := false |}.

(** * Properties *)

(** ** The exception monad *)

Lemma bind_Ok {A B} (m : result A) (k : A -> result B) (b : B) :
  m ≫= k = Ok b <-> exists a, m = Ok a /\ k a = Ok b.
Proof.
  destruct m as [a|e]; simpl; split.
  - intros H. by exists a.
  - by intros (a' & [= ->] & H).
  - discriminate.
  - by intros (a' & [=] & _).
Qed.

Lemma bind_Raise {A B} (m : result A) (k : A -> result B) (e : exn) :
  m ≫= k = Raise e <-> m = Raise e \/ exists a, m = Ok a /\ k a = Raise e.
Proof.
  destruct m as [a|e']; simpl; split.
  - intros H. right. by exists a.
  - intros [[=]|(a' & [= ->] & H)]. done.
  - intros [= ->]. by left.
  - intros [[= ->]|(a' & [=] & _)]. done.
Qed.

(** Splits [x ← m; k = Ok b] into [m = Ok x] and [k x = Ok b]. *)
Ltac inv_bind H :=
  let a := fresh "a" in
  let Ha := fresh "E" in
  apply bind_Ok in H; destruct H as (a & Ha & H).

Lemma py_index_Ok {A} (l : list A) (i : nat) (x : A) :
  py_index l i = Ok x <-> l !! i = Some x.
Proof. unfold py_index. destruct (l !! i); split; congruence. Qed.

Lemma duplicate_point_eq (pt : GPXTrackPoint) : duplicate_point pt = pt.
Proof. by destruct pt. Qed.

(** ** Floats: classification *)

Lemma SFcompare_refl (a : spec_float) : a <> S754_nan -> SFcompare a a = Some Eq.
Proof.
  destruct a as [s|s| |s m e]; try done; intros _; simpl.
  - by destruct s.
  - destruct s; rewrite Z.compare_refl, Pos.compare_cont_refl; done.
Qed.

Lemma is_nan_spec (x : float) : is_nan x = sf_nan (Prim2SF x).
Proof.
  unfold is_nan. rewrite FloatAxioms.eqb_spec. unfold SFeqb.
  destruct (Prim2SF x) as [s|s| |s m e] eqn:E; try done.
  - simpl. by destruct s.
  - rewrite SFcompare_refl; done.
Qed.

Lemma is_infinity_spec (x : float) : is_infinity x = sf_inf (Prim2SF x).
Proof.
  unfold is_infinity. rewrite FloatAxioms.eqb_spec, abs_spec. unfold SFeqb.
  change (Prim2SF infinity) with (S754_infinity false).
  by destruct (Prim2SF x) as [s|s| |s m e].
Qed.

Lemma is_finite_spec (x : float) : is_finite x = sf_finite (Prim2SF x).
Proof.
  unfold is_finite. rewrite is_nan_spec, is_infinity_spec.
  by destruct (Prim2SF x).
Qed.

Lemma finite_lt_infinity (x : float) :
  is_finite x = true -> (x <? infinity)%float = true.
Proof.
  rewrite is_finite_spec, ltb_spec.
  change (Prim2SF infinity) with (S754_infinity false).
  by destruct (Prim2SF x).
Qed.

(** [x or 0] equals [x] as a float whenever [x] is a number: only the sign
    of a zero is lost. *)
Lemma py_or_0_eqb (x : float) :
  is_nan x = false -> (py_or_0 x =? x)%float = true.
Proof.
  rewrite is_nan_spec. unfold py_or_0. intros Hx.
  destruct (x =? 0)%float eqn:E.
  - rewrite FloatAxioms.eqb_spec in E |- *.
    change (Prim2SF 0) with (S754_zero false) in *.
    by destruct (Prim2SF x) as [s|[]| |[] m e].
  - rewrite FloatAxioms.eqb_spec. unfold SFeqb.
    rewrite SFcompare_refl; [done|]. by destruct (Prim2SF x).
Qed.

(** What a bare point holds. *)
Lemma make_bare_point_spec (lat lon : float) :
  make_bare_point lat lon
  = {| latitude := if (lat =? 0)%float then 0%float else lat;
       longitude := if (lon =? 0)%float then 0%float else lon;
       elevation := None; time := None; other := [] |} /\
  (is_nan lat = false -> (latitude (make_bare_point lat lon) =? lat)%float = true) /\
  (is_nan lon = false -> (longitude (make_bare_point lat lon) =? lon)%float = true).
Proof. split_and!; [done | apply py_or_0_eqb | apply py_or_0_eqb]. Qed.

(** ** The closest vertex *)

Section VertexScan.
Context {L : Libm}.

(** The index the scan returns is the one it started with or that of a
    point it visited. *)
Lemma scan_vertices_index wpt pts : forall i best out,
  scan_vertices wpt i pts best = Ok out ->
  out = best \/ (i <= out.2 < i + length pts)%nat.
Proof.
  induction pts as [|pt rest IH]; intros i best out H; simpl in H.
  - left. congruence.
  - inv_bind H. apply IH in H as [->|Hr].
    + destruct (_ <? _)%float; [right; simpl; lia | by left].
    + right. simpl. lia.
Qed.

Lemma find_closest_vertex_index wpt pts d i :
  find_closest_vertex wpt pts = Ok (d, i) -> pts <> [] -> (i < length pts)%nat.
Proof.
  intros H Hne. apply scan_vertices_index in H as [[= -> ->]|H]; simpl in *.
  - destruct pts; [done | simpl; lia].
  - lia.
Qed.

Lemma move_waypoint_skip maxdist pts wpt d i :
  find_closest_vertex wpt pts = Ok (d, i) ->
  (maxdist <? d)%float = true ->
  move_waypoint maxdist pts wpt = Ok pts.
Proof. intros H Hd. unfold move_waypoint. rewrite H. simpl. by rewrite Hd. Qed.



End VertexScan.



(** ** Which exceptions can arise *)

Lemma math_1_Raise (f : float -> float) (x : float) (e : exn) :
  math_1 f x = Raise e -> e = ValueError.
Proof. unfold math_1. repeat case_match; congruence. Qed.

Lemma pow2_Raise (x : float) (e : exn) : pow2 x = Raise e -> e = OverflowError.
Proof. unfold pow2. case_match; congruence. Qed.

(** Peels the binds of a computation that raised. *)
Ltac inv_raise H :=
  repeat (apply bind_Raise in H as [H|(? & _ & H)]);
  try discriminate H.

Section Exceptions.
Context {L : Libm}.

Lemma haversine_Raise lat1 lon1 lat2 lon2 e :
  haversine lat1 lon1 lat2 lon2 = Raise e -> e <> IndexError.
Proof.
  unfold haversine, haversine_term, math_sin, math_cos, math_asin, math_sqrt.
  intros H. inv_raise H;
    (apply math_1_Raise in H || apply pow2_Raise in H); congruence.
Qed.

Lemma scan_vertices_Raise wpt pts : forall i best e,
  scan_vertices wpt i pts best = Raise e -> e <> IndexError.
Proof.
  induction pts as [|pt rest IH]; intros i best e H; simpl in H; [done|].
  apply bind_Raise in H as [H|(d & _ & H)].
  - by eapply haversine_Raise.
  - by eapply IH.
Qed.

(** With a finite [maxdist] the index [segment.points[vidx]] of lines 189-190
    is never out of range. *)
Lemma move_waypoint_Raise maxdist pts wpt e :
  is_finite maxdist = true ->
  move_waypoint maxdist pts wpt = Raise e -> e <> IndexError.
Proof.
  intros Hfin H. unfold move_waypoint in H.
  apply bind_Raise in H as [H|([d i] & Hv & H)].
  - by eapply scan_vertices_Raise.
  - destruct (maxdist <? d)%float eqn:Hd; [done|].
    destruct pts as [|p0 pts0].
    + injection Hv as <- <-. by rewrite finite_lt_infinity in Hd.
    + apply find_closest_vertex_index in Hv; [|done].
      apply lookup_lt_is_Some_2 in Hv as [p Hp].
      apply py_index_Ok in Hp. rewrite Hp in H. done.
Qed.

Lemma process_move_segment_Raise maxdist wpts : forall pts e,
  is_finite maxdist = true ->
  process_move_segment maxdist wpts pts = Raise e -> e <> IndexError.
Proof.
  induction wpts as [|wpt rest IH]; intros pts e Hfin H; simpl in H; [done|].
  apply bind_Raise in H as [H|(pts' & _ & H)].
  - by eapply move_waypoint_Raise.
  - by eapply IH.
Qed.

Lemma for_each_Raise {A} (f : A -> result A) (l : list A) (e : exn) :
  for_each f l = Raise e -> exists x, x ∈ l /\ f x = Raise e.
Proof.
  induction l as [|x rest IH]; simpl; [done|]. intros H.
  apply bind_Raise in H as [H|(y & _ & H)].
  - exists x. split; [left | done].
  - apply bind_Raise in H as [H|(ys & _ & H)]; [|done].
    destruct (IH H) as (x' & Hin & Hx'). exists x'. split; [by right | done].
Qed.

Lemma for_each_segment_Raise f gpx e :
  for_each_segment f gpx = Raise e -> exists pts, f pts = Raise e.
Proof.
  unfold for_each_segment. intros H.
  apply bind_Raise in H as [H|(ts & _ & H)]; [|done].
  apply for_each_Raise in H as (track & _ & H).
  apply bind_Raise in H as [H|(ss & _ & H)]; [|done].
  apply for_each_Raise in H as (segment & _ & H).
  apply bind_Raise in H as [H|(ps & _ & H)]; [|done].
  by exists (points segment).
Qed.
End Exceptions.

(** C10.  For a segment with no points [find_closest_vertex] returns an
    infinite distance with index 0; so for every finite [maxdist] the test
    [dist > maxdist] skips every waypoint, a move-mode pass over the empty
    segment returns it empty, and no move-mode run over any document raises
    IndexError. *)
Theorem move_mode_empty_segment {L : Libm} (maxdist : float)
    (wpt : GPXWaypoint) (wpts : list GPXWaypoint) :
  is_finite maxdist = true ->
  find_closest_vertex wpt [] = Ok (infinity, 0%nat) /\
  move_waypoint maxdist [] wpt = Ok [] /\
  process_move_segment maxdist wpts [] = Ok [] /\
  (forall gpx_data, process_move gpx_data maxdist <> Raise IndexError).
Proof.
  intros Hfin.
  assert (Hstep : forall w, move_waypoint maxdist [] w = Ok []).
  { intros w. eapply move_waypoint_skip; [reflexivity|].
    by apply finite_lt_infinity. }
  split_and!; [done | done | |].
  - induction wpts as [|w rest IH]; simpl; [done|]. by rewrite Hstep.
  - intros gpx H. unfold process_move in H.
    destruct (waypoints gpx) as [|w ws]; [done|].
    apply for_each_segment_Raise in H as (pts & H).
    by eapply process_move_segment_Raise.
Qed.

Lemma move_mode_empty_segment_witness :
  @find_closest_vertex small_angle wpt_start [] = Ok (infinity, 0%nat) /\
  @move_waypoint small_angle 100 [] wpt_start = Ok [] /\
  @process_move_segment small_angle 100 [wpt_start; wpt_middle] [] = Ok [] /\
  (forall gpx_data, @process_move small_angle gpx_data 100 <> Raise IndexError).
Proof.
  apply (@move_mode_empty_segment small_angle 100 wpt_start [wpt_start; wpt_middle]).
  vm_compute. reflexivity.
Defined.

(** ** The empty segment when [maxdist] is not finite *)

(** Move mode, no points, and a [maxdist] that is infinite or not a number:
    the test [dist > maxdist] of line 187 fails on the infinite distance, and
    [segment.points[0]] raises IndexError. *)
Theorem move_mode_empty_segment_unbounded {L : Libm} (maxdist : float)
    (wpt : GPXWaypoint) (wpts : list GPXWaypoint) :
  (maxdist <? infinity)%float = false ->
  move_waypoint maxdist [] wpt = Raise IndexError /\
  process_move_segment maxdist (wpt :: wpts) [] = Raise IndexError.
Proof.
  intros Hmax.
  assert (Hstep : move_waypoint maxdist [] wpt = Raise IndexError).
  { unfold move_waypoint. simpl. by rewrite Hmax. }
  split; [done|]. simpl. by rewrite Hstep.
Qed.

Lemma move_mode_empty_segment_unbounded_witness :
  @move_waypoint small_angle infinity [] wpt_start = Raise IndexError /\
  @process_move_segment small_angle infinity [wpt_start; wpt_middle] []
  = Raise IndexError.
Proof.
  apply (@move_mode_empty_segment_unbounded small_angle infinity wpt_start [wpt_middle]).
  reflexivity.
Defined.

(** Add mode, same case: the match has no vertex index, the insertion is at
    index 1 with the projection at [(0, 0)], and the three [insert(1, p)]
    calls on the growing list leave the two [(0, 0)] points first and the
    bare point made for the waypoint last (it holds [lat or 0] and
    [lon or 0], so for a waypoint at a negative zero it is at [0]). *)
Theorem add_mode_empty_segment_unbounded {L : Libm} (maxdist : float)
    (wpt : GPXWaypoint) :
  (maxdist <? infinity)%float = false ->
  process_add_segment maxdist [wpt] []
  = Ok [make_bare_point 0 0; make_bare_point 0 0;
        make_bare_point (wpt_latitude wpt) (wpt_longitude wpt)].
Proof.
  intros Hmax. unfold process_add_segment, collect_insertions, add_insertion.
  simpl. by rewrite Hmax.
Qed.

Lemma add_mode_empty_segment_unbounded_witness :
  @process_add_segment small_angle infinity [wpt_start] []
  = Ok [make_bare_point 0 0; make_bare_point 0 0; make_bare_point 1e-7 0] /\
  @process_add_segment small_angle infinity [wpt_negative_zero] []
  = Ok [make_bare_point 0 0; make_bare_point 0 0;
        {| latitude := 0; longitude := 0; elevation := None; time := None;
           other := [] |}].
Proof.
  split.
  - apply (@add_mode_empty_segment_unbounded small_angle infinity wpt_start).
    reflexivity.
  - rewrite (@add_mode_empty_segment_unbounded small_angle infinity wpt_negative_zero)
      by reflexivity.
    vm_compute. reflexivity.
Defined.

(** ** Floats: order and cancellation *)

Lemma ltb_leb (x y : float) : (x <? y)%float = true -> (x <=? y)%float = true.
Proof.
  rewrite ltb_spec, leb_spec. unfold SFltb, SFleb.
  by destruct (SFcompare _ _) as [[]|].
Qed.

(** [x - x] is [+0] for every finite [x]. *)
Lemma sub_diag (x : float) : is_finite x = true -> (x - x)%float = 0%float.
Proof.
  rewrite is_finite_spec. intros Hx. apply Prim2SF_inj. rewrite sub_spec.
  change (Prim2SF 0) with (S754_zero false).
  destruct (Prim2SF x) as [s|s| |s m e]; try done.
  - by destruct s.
  - unfold SF64sub, SFsub. rewrite Z.min_id. unfold shl_align.
    rewrite Z.sub_diag. simpl. by rewrite ?Z.sub_diag.
Qed.

Lemma clamp_unit_interval (t : float) :
  let r := py_max 0 (py_min 1 t) in
  (0 <=? r)%float = true /\ (r <=? 1)%float = true.
Proof.
  unfold py_max, py_min.
  destruct (t <? 1)%float eqn:H1.
  - destruct (0 <? t)%float eqn:H0; [by split; apply ltb_leb | done].
  - done.
Qed.

Lemma project_onto_segment_range {L : Libm} (wlat wlon alat alon blat blon : float) :
  match project_onto_segment wlat wlon alat alon blat blon with
  | Raise _ => True
  | Ok (_, _, t) => (0 <=? t)%float = true /\ (t <=? 1)%float = true
  end.
Proof.
  unfold project_onto_segment.
  destruct (math_cos _) as [c|e]; simpl; [|done].
  destruct (_ =? 0)%float; [done|]. apply clamp_unit_interval.
Qed.

(** ** The closest point on a segment *)

Section EdgeScan.
Context {L : Libm}.

(** The scan returns the state it was entered with, or one set at an edge. *)
Lemma scan_edges_spec wpt points pts : forall i best out,
  drop i points = pts ->
  scan_edges wpt i pts best = Ok out ->
  out = best \/ edge_result wpt points out.
Proof.
  induction pts as [|a rest IH]; intros i best out Hdrop H; simpl in H.
  - left. congruence.
  - destruct rest as [|b rest']; [left; congruence|].
    inv_bind H. destruct a0 as [[plat plon] t]. inv_bind H.
    assert (Ha : points !! i = Some a).
    { rewrite <- (Nat.add_0_r i), <- lookup_drop, Hdrop. done. }
    assert (Hb : points !! S i = Some b).
    { rewrite <- (Nat.add_1_r i), <- lookup_drop, Hdrop. done. }
    assert (Hdrop' : drop (S i) points = b :: rest').
    { erewrite drop_S in Hdrop by done. congruence. }
    apply (IH _ _ _ Hdrop') in H as [->|H]; [|by right].
    destruct (_ <? _)%float; [right | by left].
    exists a, b. simpl. done.
Qed.

(** A state that stems from an edge has its parameter in [[0, 1]]. *)
Lemma edge_result_unit_interval wpt points best :
  edge_result wpt points best ->
  (0 <=? best_t best)%float = true /\ (best_t best <=? 1)%float = true.
Proof.
  intros (a & b & _ & _ & Hp & _).
  pose proof (project_onto_segment_range (wpt_latitude wpt) (wpt_longitude wpt)
    (latitude a) (longitude a) (latitude b) (longitude b)) as H.
  rewrite Hp in H. tauto.
Qed.

Lemma classify_vertex_classified points best v :
  classify_vertex points best = Ok v ->
  classified points (closest_of best v).
Proof.
  unfold classify_vertex, classified. simpl.
  destruct (best_t best <? 1e-9)%float; [intros H; congruence|].
  destruct (_ <? best_t best)%float; [intros H; congruence|].
  intros H. inv_bind H. inv_bind H. inv_bind H. inv_bind H.
  apply py_index_Ok in E, E1.
  exists a, a1, a0, a2. split_and!; try done.
  repeat case_match; congruence.
Qed.

(** What [find_closest_on_segment] returns on a non-empty segment: either
    nothing won and it reports the initial values with vertex 0 (or, for a
    single point, that point), or an edge won. *)
Lemma find_closest_on_segment_spec wpt points c :
  points <> [] ->
  find_closest_on_segment wpt points = Ok c ->
  classified points c /\
  ((exists p d, points = [p] /\
      haversine (wpt_latitude wpt) (wpt_longitude wpt) (latitude p) (longitude p) = Ok d /\
      c = {| min_dist := d; seg_idx := 0; projected_lat := latitude p;
             projected_lon := longitude p; t_param := 0; vertex_idx := Some 0 |}) \/
   c = closest_of best_init (Some 0) \/
   (exists best, edge_result wpt points best /\ c = closest_of best (vertex_idx c))).
Proof.
  intros Hne H. destruct points as [|p0 rest]; [done|].
  unfold find_closest_on_segment in H. inv_bind H. rename a into best.
  assert (Hclass : forall c',
    (classify_vertex (p0 :: rest) best ≫= fun v => Ok (closest_of best v)) = Ok c' ->
    classified (p0 :: rest) c' /\
    (c' = closest_of best_init (Some 0) \/
     (exists best, edge_result wpt (p0 :: rest) best /\ c' = closest_of best (vertex_idx c')))).
  { intros c' Hc. inv_bind Hc. injection Hc as <-.
    split; [by apply classify_vertex_classified|].
    destruct (scan_edges_spec wpt (p0 :: rest) _ 0 _ _ eq_refl E) as [->|He].
    - left. unfold classify_vertex in E0. simpl in E0. congruence.
    - right. by exists best. }
  destruct rest as [|p1 rest'].
  - inv_bind H. destruct (_ <? _)%float.
    + injection H as <-. split; [done|]. left. by exists p0, a.
    + apply Hclass in H as [? ?]. split; [done | by right].
  - apply Hclass in H as [? ?]. split; [done | by right].
Qed.

(** The indices [find_closest_on_segment] returns are in range: the edge's
    first point exists, and so does the vertex it names. *)
Lemma find_closest_on_segment_indices wpt points c :
  points <> [] ->
  find_closest_on_segment wpt points = Ok c ->
  (seg_idx c < length points)%nat /\
  (forall v, vertex_idx c = Some v -> (v < length points)%nat).
Proof.
  intros Hne H. pose proof (find_closest_on_segment_spec _ _ _ Hne H) as [Hcl Hc].
  assert (Hlen : (0 < length points)%nat) by (destruct points; [done | simpl; lia]).
  destruct Hc as [(p & d & -> & _ & ->)|[->|(best & (a & b & Ha & Hb & _) & Hc)]].
  - simpl. split; [lia|]. intros v [= <-]. lia.
  - simpl. split; [lia|]. intros v [= <-]. lia.
  - apply lookup_lt_Some in Ha, Hb. rewrite Hc. simpl.
    split; [lia|]. intros v Hv.
    rewrite Hc in Hcl. unfold classified in Hcl. simpl in Hcl. rewrite Hv in Hcl.
    destruct (best_t best <? _)%float; [injection Hcl as ->; lia|].
    destruct (_ <? best_t best)%float; [injection Hcl as ->; lia|].
    destruct Hcl as (pa & pb & d_a & d_b & _ & _ & _ & _ & Hcl).
    destruct (d_a <? _)%float; [injection Hcl as ->; lia|].
    destruct (d_b <? _)%float; [injection Hcl as ->; lia | done].
Qed.
End EdgeScan.

(** C4.  On a non-empty segment, what [find_closest_on_segment] returns has
    its parameter [t] in [[0, 1]] and its vertex index decided by [t] and the
    endpoints of the winning edge alone: [t < 1e-9] gives the edge's start
    vertex, else [t > 1 - 1e-9] gives its end vertex, else a projected point
    less than [TOLERANCE = 0.05] m from the start (first) or the end vertex
    gives that vertex, and otherwise there is no vertex index.  In particular
    [t = 0] gives the start vertex and [t = 1] the end vertex. *)
Theorem vertex_classification {L : Libm} (wpt : GPXWaypoint)
    (points : list GPXTrackPoint) (c : Closest) :
  points <> [] ->
  find_closest_on_segment wpt points = Ok c ->
  (0 <=? t_param c)%float = true /\ (t_param c <=? 1)%float = true /\
  (if (t_param c <? 1e-9)%float then vertex_idx c = Some (seg_idx c)
   else if (1 - 1e-9 <? t_param c)%float then vertex_idx c = Some (seg_idx c + 1)%nat
   else
     exists pa pb d_a d_b,
       points !! seg_idx c = Some pa /\
       points !! (seg_idx c + 1)%nat = Some pb /\
       haversine (projected_lat c) (projected_lon c) (latitude pa) (longitude pa) = Ok d_a /\
       haversine (projected_lat c) (projected_lon c) (latitude pb) (longitude pb) = Ok d_b /\
       vertex_idx c =
         if (d_a <? TOLERANCE)%float then Some (seg_idx c)
         else if (d_b <? TOLERANCE)%float then Some (seg_idx c + 1)%nat
         else None) /\
  (t_param c = 0%float -> vertex_idx c = Some (seg_idx c)) /\
  (t_param c = 1%float -> vertex_idx c = Some (seg_idx c + 1)%nat).
Proof.
  intros Hne H.
  destruct (find_closest_on_segment_spec _ _ _ Hne H) as [Hcl Hc].
  assert (Ht : (0 <=? t_param c)%float = true /\ (t_param c <=? 1)%float = true).
  { destruct Hc as [(p & d & _ & _ & ->)|[->|(best & He & ->)]]; [done | done |].
    by apply edge_result_unit_interval in He. }
  destruct Ht as [Ht0 Ht1]. split_and!; [done | done | exact Hcl | |].
  - intros E. unfold classified in Hcl. rewrite E in Hcl. exact Hcl.
  - intros E. unfold classified in Hcl. rewrite E in Hcl. exact Hcl.
Qed.

Lemma vertex_classification_witness :
  exists c,
    @find_closest_on_segment small_angle wpt_middle sample_points = Ok c /\
    (0 <=? t_param c)%float = true /\ (t_param c <=? 1)%float = true /\
    (t_param c = 0%float -> vertex_idx c = Some (seg_idx c)) /\
    (t_param c = 1%float -> vertex_idx c = Some (seg_idx c + 1)%nat).
Proof.
  eexists. split; [vm_compute; reflexivity|].
  destruct (@vertex_classification small_angle wpt_middle sample_points _
    ltac:(discriminate) ltac:(vm_compute; reflexivity)) as (H0 & H1 & _ & Hs & He).
  exact (conj H0 (conj H1 (conj Hs He))).
Defined.

(** ** Skipped waypoints *)

Section Skip.
Context {L : Libm}.

Lemma add_insertion_skip maxdist points wpt c :
  find_closest_on_segment wpt points = Ok c ->
  (maxdist <? min_dist c)%float = true ->
  add_insertion maxdist points wpt = Ok None.
Proof. intros H Hd. unfold add_insertion. rewrite H. simpl. by rewrite Hd. Qed.

(** A waypoint whose iteration hits [continue] adds nothing to the list of
    insertions, wherever it stands among the waypoints. *)
Lemma collect_insertions_skip maxdist points wpt before after :
  add_insertion maxdist points wpt = Ok None ->
  collect_insertions maxdist points (before ++ wpt :: after)
  = collect_insertions maxdist points (before ++ after).
Proof.
  intros Hskip. induction before as [|w ws IH]; simpl.
  - rewrite Hskip. simpl. by destruct (collect_insertions _ _ after).
  - by rewrite IH.
Qed.
End Skip.

(** C8.  A waypoint whose distance to the segment exceeds [maxdist] (the
    test [dist > maxdist] of lines 149 and 187 holds) is skipped without an
    error.  Add mode: its iteration yields no insertion, a pass with it alone
    returns the points as they were, and among other waypoints the pass does
    what it does without it.  Move mode: its iteration returns the points as
    they were, and the pass continues as if it had not been there. *)
Theorem beyond_maxdist_skipped {L : Libm} (maxdist : float)
    (points : list GPXTrackPoint) (wpt : GPXWaypoint) :
  (forall c,
     find_closest_on_segment wpt points = Ok c ->
     (maxdist <? min_dist c)%float = true ->
     add_insertion maxdist points wpt = Ok None /\
     process_add_segment maxdist [wpt] points = Ok points /\
     forall before after,
       process_add_segment maxdist (before ++ wpt :: after) points
       = process_add_segment maxdist (before ++ after) points) /\
  (forall d i,
     find_closest_vertex wpt points = Ok (d, i) ->
     (maxdist <? d)%float = true ->
     move_waypoint maxdist points wpt = Ok points /\
     forall rest,
       process_move_segment maxdist (wpt :: rest) points
       = process_move_segment maxdist rest points).
Proof.
  split.
  - intros c Hc Hd. pose proof (add_insertion_skip _ _ _ _ Hc Hd) as Hskip.
    split_and!; [done | |].
    + unfold process_add_segment. simpl. by rewrite Hskip.
    + intros before after. unfold process_add_segment.
      by rewrite collect_insertions_skip.
  - intros d i Hv Hd. pose proof (move_waypoint_skip _ _ _ _ _ Hv Hd) as Hskip.
    split; [done|]. intros rest. simpl. by rewrite Hskip.
Qed.

Lemma beyond_maxdist_skipped_witness :
  @process_add_segment small_angle 0.01 [wpt_far] sample_points = Ok sample_points /\
  @move_waypoint small_angle 0.01 sample_points wpt_far = Ok sample_points.
Proof.
  destruct (@beyond_maxdist_skipped small_angle 0.01 sample_points wpt_far)
    as [Hadd Hmove].
  split.
  - edestruct Hadd as (_ & H & _); [| | exact H]; vm_compute; reflexivity.
  - edestruct Hmove as (H & _); [| | exact H]; vm_compute; reflexivity.
Defined.

(** ** Inserting points *)

Lemma py_insert_sublist {A} (i : nat) (x : A) (l : list A) :
  sublist l (py_insert i x l).
Proof.
  unfold py_insert. rewrite <- (take_drop i l) at 1.
  apply sublist_app; [done|]. by apply sublist_cons.
Qed.

Lemma py_insert_perm {A} (i : nat) (x : A) (l : list A) :
  py_insert i x l ≡ₚ x :: l.
Proof.
  unfold py_insert. rewrite <- (take_drop i l) at 3.
  symmetry. apply Permutation_middle.
Qed.

(** Inserting the points of a block one by one, last first, at the same
    in-range index puts the block there as a whole. *)
Lemma insert_points_in_range (idx : nat) (pts l : list GPXTrackPoint) :
  (idx <= length l)%nat ->
  insert_points idx pts l = take idx l ++ pts ++ drop idx l.
Proof.
  intros Hidx. unfold insert_points.
  induction pts as [|p pts IH]; simpl.
  - by rewrite take_drop.
  - rewrite reverse_cons, foldl_app. simpl. rewrite IH. unfold py_insert.
    rewrite take_app_length', drop_app_length'; [done | |];
      rewrite length_take; lia.
Qed.

Lemma insert_points_sublist (idx : nat) (pts l : list GPXTrackPoint) :
  sublist l (insert_points idx pts l).
Proof.
  unfold insert_points. generalize (reverse pts). intros ps. revert l.
  induction ps as [|p ps IH]; intros l; simpl; [done|].
  etrans; [apply (py_insert_sublist idx p) | apply IH].
Qed.

Lemma insert_points_perm (idx : nat) (pts l : list GPXTrackPoint) :
  insert_points idx pts l ≡ₚ l ++ pts.
Proof.
  unfold insert_points. rewrite <- (reverse_Permutation pts) at 2.
  generalize (reverse pts). intros ps. revert l.
  induction ps as [|p ps IH]; intros l; simpl; [by rewrite app_nil_r|].
  rewrite IH, py_insert_perm. simpl. apply Permutation_middle.
Qed.

Lemma insert_points_head (idx : nat) (pts l : list GPXTrackPoint) :
  (0 < idx)%nat -> l <> [] -> head (insert_points idx pts l) = head l.
Proof.
  intros Hidx. unfold insert_points. generalize (reverse pts). intros ps. revert l.
  induction ps as [|p ps IH]; intros l Hl; simpl; [done|].
  assert (Hh : head (py_insert idx p l) = head l).
  { unfold py_insert. destruct l as [|x l]; [done|].
    destruct idx as [|idx]; [lia | done]. }
  rewrite IH, Hh; [done|]. intros E. rewrite E in Hh. by destruct l.
Qed.

Lemma apply_insertions_sublist (ins : list insertion) (l : list GPXTrackPoint) :
  sublist l (apply_insertions ins l).
Proof.
  unfold apply_insertions. revert l.
  induction ins as [|x ins IH]; intros l; simpl; [done|].
  etrans; [apply (insert_points_sublist x.1 x.2) | apply IH].
Qed.

Lemma apply_insertions_perm (ins : list insertion) (l : list GPXTrackPoint) :
  apply_insertions ins l ≡ₚ l ++ concat (snd <$> ins).
Proof.
  unfold apply_insertions. revert l.
  induction ins as [|x ins IH]; intros l; simpl; [by rewrite app_nil_r|].
  rewrite IH, insert_points_perm. by rewrite <- (assoc_L (++)).
Qed.

Lemma apply_insertions_head (ins : list insertion) (l : list GPXTrackPoint) :
  Forall (fun x => 0 < x.1)%nat ins -> l <> [] ->
  head (apply_insertions ins l) = head l.
Proof.
  unfold apply_insertions. revert l.
  induction ins as [|x ins IH]; intros l Hpos Hl; simpl; [done|].
  apply Forall_cons in Hpos as [Hx Hpos].
  pose proof (insert_points_head x.1 x.2 l Hx Hl) as Hh.
  rewrite IH, Hh; [done | done |]. intros E. rewrite E in Hh. by destruct l.
Qed.

(** ** Sorting the insertions *)

Lemma insert_desc_perm (x : insertion) (l : list insertion) :
  insert_desc x l ≡ₚ x :: l.
Proof.
  induction l as [|y l IH]; simpl; [done|].
  destruct (y.1 <=? x.1)%nat; [done|]. by rewrite IH, Permutation_swap.
Qed.

Lemma sort_desc_perm (l : list insertion) : sort_desc l ≡ₚ l.
Proof.
  induction l as [|x l IH]; simpl; [done|]. by rewrite insert_desc_perm, IH.
Qed.

Lemma insert_desc_sorted (x : insertion) (l : list insertion) :
  Sorted (fun a b => b.1 <= a.1)%nat l ->
  Sorted (fun a b => b.1 <= a.1)%nat (insert_desc x l).
Proof.
  induction 1 as [|y l Hs IH Hhd]; simpl.
  - by repeat constructor.
  - destruct (y.1 <=? x.1)%nat eqn:E.
    + apply Nat.leb_le in E. by repeat constructor.
    + apply Nat.leb_gt in E. constructor; [done|].
      destruct Hhd as [|z l Hz]; simpl.
      * constructor. lia.
      * destruct (z.1 <=? x.1)%nat; constructor; lia.
Qed.

Lemma sort_desc_sorted (l : list insertion) :
  Sorted (fun a b => b.1 <= a.1)%nat (sort_desc l).
Proof.
  induction l as [|x l IH]; simpl; [constructor | by apply insert_desc_sorted].
Qed.

(** The sort is stable: insertions at the same index keep their order. *)
Lemma at_index_cons (k : nat) (y : insertion) (l : list insertion) :
  at_index k (y :: l) = if decide (y.1 = k) then y :: at_index k l else at_index k l.
Proof. reflexivity. Qed.

Lemma insert_desc_stable (k : nat) (x : insertion) (l : list insertion) :
  at_index k (insert_desc x l) = at_index k (x :: l).
Proof.
  induction l as [|y l IH]; simpl; [done|].
  destruct (y.1 <=? x.1)%nat eqn:E; [done|]. apply Nat.leb_gt in E.
  rewrite (at_index_cons k y), IH, !at_index_cons.
  repeat case_decide; try done; lia.
Qed.

Lemma sort_desc_stable (k : nat) (l : list insertion) :
  at_index k (sort_desc l) = at_index k l.
Proof.
  induction l as [|x l IH]; simpl; [done|].
  by rewrite insert_desc_stable, !at_index_cons, IH.
Qed.

(** ** Add mode *)

Section AddMode.
Context {L : Libm}.

(** A match without a vertex index lies on an existing edge. *)
Lemma no_vertex_on_edge wpt points c :
  points <> [] ->
  find_closest_on_segment wpt points = Ok c ->
  vertex_idx c = None ->
  exists pa pb, points !! seg_idx c = Some pa /\ points !! S (seg_idx c) = Some pb.
Proof.
  intros Hne H Hv.
  destruct (find_closest_on_segment_spec _ _ _ Hne H) as [Hcl _].
  unfold classified in Hcl. rewrite Hv in Hcl.
  destruct (t_param c <? _)%float; [done|].
  destruct (_ <? t_param c)%float; [done|].
  destruct Hcl as (pa & pb & _ & _ & Ha & Hb & _).
  exists pa, pb. by rewrite <- Nat.add_1_r.
Qed.

Lemma add_insertion_vertex maxdist points wpt c v V :
  find_closest_on_segment wpt points = Ok c ->
  (maxdist <? min_dist c)%float = false ->
  vertex_idx c = Some v ->
  points !! v = Some V ->
  add_insertion maxdist points wpt =
    Ok (Some (S v, [make_bare_point (wpt_latitude wpt) (wpt_longitude wpt);
                    duplicate_point V])).
Proof.
  intros H Hd Hv HV. unfold add_insertion. rewrite H. simpl. rewrite Hd, Hv.
  apply py_index_Ok in HV. rewrite HV. simpl. by rewrite Nat.add_1_r.
Qed.

Lemma add_insertion_edge maxdist points wpt c :
  find_closest_on_segment wpt points = Ok c ->
  (maxdist <? min_dist c)%float = false ->
  vertex_idx c = None ->
  add_insertion maxdist points wpt =
    Ok (Some (S (seg_idx c),
              [make_bare_point (projected_lat c) (projected_lon c);
               make_bare_point (wpt_latitude wpt) (wpt_longitude wpt);
               make_bare_point (projected_lat c) (projected_lon c)])).
Proof.
  intros H Hd Hv. unfold add_insertion. rewrite H. simpl. rewrite Hd, Hv.
  by rewrite Nat.add_1_r.
Qed.

(** Every insertion index is at least 1: nothing is put before the first
    point. *)
Lemma add_insertion_index maxdist points wpt x :
  add_insertion maxdist points wpt = Ok (Some x) -> (0 < x.1)%nat.
Proof.
  unfold add_insertion. intros H. inv_bind H.
  destruct (_ <? _)%float; [done|].
  destruct (vertex_idx a).
  - inv_bind H. injection H as <-. simpl. lia.
  - injection H as <-. simpl. lia.
Qed.

Lemma collect_insertions_index maxdist points wpts : forall ins,
  collect_insertions maxdist points wpts = Ok ins ->
  Forall (fun x => 0 < x.1)%nat ins.
Proof.
  induction wpts as [|w ws IH]; intros ins H; simpl in H.
  - injection H as <-. constructor.
  - inv_bind H. inv_bind H. injection H as <-. destruct a as [x|]; [|by apply IH].
    constructor; [by eapply add_insertion_index | by apply IH].
Qed.

(** [add_insertion] raises only what [find_closest_on_segment] raises: the
    vertex it names can always be indexed. *)
Lemma add_insertion_total maxdist points wpt c :
  find_closest_on_segment wpt points = Ok c ->
  exists o, add_insertion maxdist points wpt = Ok o.
Proof.
  intros H. unfold add_insertion. rewrite H. simpl.
  destruct (_ <? _)%float; [by eexists|].
  destruct (vertex_idx c) as [v|] eqn:Hv; [|by eexists].
  assert (Hne : points <> []).
  { intros ->. injection H as <-. done. }
  destruct (find_closest_on_segment_indices _ _ _ Hne H) as [_ Hlt].
  apply Hlt, lookup_lt_is_Some_2 in Hv as [V HV].
  apply py_index_Ok in HV. rewrite HV. by eexists.
Qed.

Lemma collect_insertions_total maxdist points wpts :
  (forall wpt, wpt ∈ wpts -> exists c, find_closest_on_segment wpt points = Ok c) ->
  exists ins, collect_insertions maxdist points wpts = Ok ins.
Proof.
  induction wpts as [|w ws IH]; intros H; simpl; [by eexists|].
  destruct (H w) as [c Hc]; [left|].
  destruct (add_insertion_total maxdist _ _ _ Hc) as [o ->].
  destruct IH as [ins ->]; [intros w' Hw'; apply H; by right|].
  by eexists.
Qed.

Lemma for_each_Ok {A} (f : A -> result A) (l l' : list A) :
  for_each f l = Ok l' -> Forall2 (fun x y => f x = Ok y) l l'.
Proof.
  revert l'. induction l as [|x l IH]; intros l' H; simpl in H.
  - injection H as <-. constructor.
  - inv_bind H. inv_bind H. injection H as <-. constructor; [done | by apply IH].
Qed.

Lemma for_each_total {A} (f : A -> result A) (l : list A) :
  (forall x, x ∈ l -> exists y, f x = Ok y) -> exists l', for_each f l = Ok l'.
Proof.
  induction l as [|x l IH]; intros H; simpl; [by eexists|].
  destruct (H x) as [y ->]; [left|].
  destruct IH as [l' ->]; [intros x' Hx'; apply H; by right|].
  by eexists.
Qed.

Lemma for_each_segment_Ok f gpx gpx' :
  for_each_segment f gpx = Ok gpx' ->
  waypoints gpx' = waypoints gpx /\
  Forall2 (fun track track' =>
    Forall2 (fun segment segment' => f (points segment) = Ok (points segment'))
      (segments track) (segments track'))
    (tracks gpx) (tracks gpx').
Proof.
  unfold for_each_segment. intros H. inv_bind H. injection H as <-. simpl.
  split; [done|]. apply for_each_Ok in E.
  eapply Forall2_impl; [exact E|]. intros track track' Ht. simpl in Ht.
  inv_bind Ht. injection Ht as <-. simpl. apply for_each_Ok in E0.
  eapply Forall2_impl; [exact E0|]. intros segment segment' Hs. simpl in Hs.
  inv_bind Hs. by injection Hs as <-.
Qed.

Lemma for_each_segment_total f gpx :
  (forall track segment, track ∈ tracks gpx -> segment ∈ segments track ->
     exists pts, f (points segment) = Ok pts) ->
  exists gpx', for_each_segment f gpx = Ok gpx'.
Proof.
  intros H. unfold for_each_segment.
  edestruct (for_each_total (A := GPXTrack)) as [ts ->]; [|by eexists].
  intros track Ht.
  edestruct (for_each_total (A := GPXTrackSegment)) as [ss ->]; [|by eexists].
  intros segment Hs. destruct (H track segment Ht Hs) as [pts ->]. by eexists.
Qed.
End AddMode.

(** ** Applying insertions in descending order *)

(** Insertions at indices within a prefix change that prefix only. *)
Lemma insert_points_app (idx : nat) (pts pre rest : list GPXTrackPoint) :
  (idx <= length pre)%nat ->
  insert_points idx pts (pre ++ rest) = insert_points idx pts pre ++ rest.
Proof.
  intros Hidx. rewrite !insert_points_in_range by (rewrite ?length_app; lia).
  rewrite take_app_le, drop_app_le by done. by rewrite <- !(assoc_L (++)).
Qed.

Lemma insert_points_length (idx : nat) (pts l : list GPXTrackPoint) :
  length (insert_points idx pts l) = (length l + length pts)%nat.
Proof. by rewrite insert_points_perm, length_app. Qed.

Lemma apply_insertions_app (ins : list insertion) (pre rest : list GPXTrackPoint) :
  Forall (fun x => x.1 <= length pre)%nat ins ->
  apply_insertions ins (pre ++ rest) = apply_insertions ins pre ++ rest.
Proof.
  unfold apply_insertions. revert pre.
  induction ins as [|x ins IH]; intros pre Hall; simpl; [done|].
  apply Forall_cons in Hall as [Hx Hall].
  rewrite insert_points_app by done. apply IH.
  eapply Forall_impl; [exact Hall|]. simpl. intros y Hy.
  rewrite insert_points_length. lia.
Qed.

(** With the indices descending and in range, the first insertion applied
    ends up right before the point it was aimed at, the later ones only
    touch what precedes it. *)
Lemma apply_insertions_descending (x : insertion) (ins : list insertion)
    (l : list GPXTrackPoint) :
  (x.1 <= length l)%nat ->
  Forall (fun y => y.1 <= x.1)%nat ins ->
  apply_insertions (x :: ins) l
  = apply_insertions ins (take x.1 l) ++ x.2 ++ drop x.1 l.
Proof.
  intros Hx Hall. change (apply_insertions (x :: ins) l)
    with (apply_insertions ins (insert_points x.1 x.2 l)).
  rewrite insert_points_in_range by done. apply apply_insertions_app.
  eapply Forall_impl; [exact Hall|]. simpl. intros y Hy.
  rewrite length_take. lia.
Qed.

#[local] Instance descending_trans :
  Transitive (fun a b : insertion => b.1 <= a.1)%nat.
Proof. intros a b c ? ?. lia. Qed.

(** Every block stays in one piece. *)
Lemma apply_insertions_block (ins : list insertion) : forall (l : list GPXTrackPoint) x,
  Sorted (fun a b => b.1 <= a.1)%nat ins ->
  Forall (fun y => y.1 <= length l)%nat ins ->
  x ∈ ins ->
  exists l1 l2, apply_insertions ins l = l1 ++ x.2 ++ l2.
Proof.
  induction ins as [|y ins IH]; intros l x Hs Hall Hx; [by apply elem_of_nil in Hx|].
  apply Sorted_StronglySorted in Hs; [|apply _].
  apply StronglySorted_inv in Hs as [Hs Hle].
  apply Forall_cons in Hall as [Hy Hall].
  rewrite apply_insertions_descending by done.
  apply elem_of_cons in Hx as [->|Hx].
  - by eexists _, _.
  - destruct (IH (take y.1 l) x) as (l1 & l2 & ->).
    + by apply StronglySorted_Sorted.
    + eapply Forall_impl; [exact Hle|]. simpl. intros z Hz.
      rewrite length_take. lia.
    + done.
    + exists l1, (l2 ++ y.2 ++ drop y.1 l). by rewrite <- !(assoc_L (++)).
Qed.

Section AddModeRun.
Context {L : Libm}.

(** On a non-empty segment every insertion index is within the segment. *)
Lemma add_insertion_in_range maxdist points wpt x :
  points <> [] ->
  add_insertion maxdist points wpt = Ok (Some x) -> (x.1 <= length points)%nat.
Proof.
  intros Hne H. unfold add_insertion in H. inv_bind H. rename a into c.
  destruct (_ <? _)%float; [done|].
  destruct (vertex_idx c) as [v|] eqn:Hv.
  - inv_bind H. injection H as <-. simpl.
    apply py_index_Ok, lookup_lt_Some in E0. lia.
  - injection H as <-. simpl.
    destruct (no_vertex_on_edge _ _ _ Hne E Hv) as (pa & pb & _ & Hb).
    apply lookup_lt_Some in Hb. lia.
Qed.

Lemma collect_insertions_in_range maxdist points wpts : forall ins,
  points <> [] ->
  collect_insertions maxdist points wpts = Ok ins ->
  Forall (fun x => x.1 <= length points)%nat ins.
Proof.
  induction wpts as [|w ws IH]; intros ins Hne H; simpl in H.
  - injection H as <-. constructor.
  - inv_bind H. inv_bind H. injection H as <-. destruct a as [x|]; [|by apply IH].
    constructor; [by eapply add_insertion_in_range | by apply IH].
Qed.

(** The insertion of each waypoint that is not skipped is among those
    collected. *)
Lemma collect_insertions_elem maxdist points wpts wpt x : forall ins,
  wpt ∈ wpts ->
  add_insertion maxdist points wpt = Ok (Some x) ->
  collect_insertions maxdist points wpts = Ok ins ->
  x ∈ ins.
Proof.
  induction wpts as [|w ws IH]; intros ins Hin Hx H; [by apply elem_of_nil in Hin|].
  simpl in H. inv_bind H. inv_bind H. injection H as <-.
  apply elem_of_cons in Hin as [<-|Hin].
  - rewrite Hx in E. injection E as <-. left.
  - destruct a; [right|]; by apply IH.
Qed.

Lemma process_add_segment_block maxdist points wpts wpt x out :
  points <> [] ->
  wpt ∈ wpts ->
  add_insertion maxdist points wpt = Ok (Some x) ->
  process_add_segment maxdist wpts points = Ok out ->
  exists l1 l2, out = l1 ++ x.2 ++ l2.
Proof.
  intros Hne Hin Hx H. unfold process_add_segment in H. inv_bind H.
  injection H as <-. rename a into ins.
  apply apply_insertions_block.
  - apply sort_desc_sorted.
  - rewrite sort_desc_perm. by eapply collect_insertions_in_range.
  - rewrite sort_desc_perm. by eapply collect_insertions_elem.
Qed.

Lemma process_add_segment_single maxdist points wpt x :
  points <> [] ->
  add_insertion maxdist points wpt = Ok (Some x) ->
  process_add_segment maxdist [wpt] points
  = Ok (take x.1 points ++ x.2 ++ drop x.1 points).
Proof.
  intros Hne Hx. unfold process_add_segment. simpl. rewrite Hx. simpl.
  unfold apply_insertions. simpl.
  rewrite insert_points_in_range; [done|]. by eapply add_insertion_in_range.
Qed.
End AddModeRun.

(** C1.  Add mode, a waypoint within [maxdist] of a segment (the test
    [dist > maxdist] of line 149 fails; [c] is what [find_closest_on_segment]
    returns).  If the match names a vertex, that vertex [V] exists and the
    waypoint's insertion is, at the index right after [V], a bare point at the
    waypoint followed by a copy of [V] equal to it in every field.  If it
    names none, the insertion is, at the index right after the edge's first
    endpoint, three bare points: the projection, the waypoint, the projection;
    on a segment that has points the edge's two endpoints exist.  A pass with
    this waypoint alone returns the points with that block right behind [V]
    (resp. between the endpoints), and in a pass over a segment that has
    points with any other waypoints the block stays in one piece.  A bare
    point has no elevation, time or other field, and holds [lat or 0] and
    [lon or 0]: the coordinates it is made for, a zero of either sign stored
    as [0]; they equal the given ones whenever these are numbers. *)
Theorem add_mode_insertion {L : Libm} (maxdist : float)
    (points : list GPXTrackPoint) (wpt : GPXWaypoint) (c : Closest) :
  find_closest_on_segment wpt points = Ok c ->
  (maxdist <? min_dist c)%float = false ->
  exists block,
    match vertex_idx c with
    | Some v =>
        exists V, points !! v = Some V /\ duplicate_point V = V /\
          block = [make_bare_point (wpt_latitude wpt) (wpt_longitude wpt);
                   duplicate_point V] /\
          add_insertion maxdist points wpt = Ok (Some (S v, block)) /\
          process_add_segment maxdist [wpt] points
          = Ok (take v points ++ [V] ++ block ++ drop (S v) points)
    | None =>
        block = [make_bare_point (projected_lat c) (projected_lon c);
                 make_bare_point (wpt_latitude wpt) (wpt_longitude wpt);
                 make_bare_point (projected_lat c) (projected_lon c)] /\
        add_insertion maxdist points wpt = Ok (Some (S (seg_idx c), block)) /\
        (points <> [] ->
         exists A B, points !! seg_idx c = Some A /\ points !! S (seg_idx c) = Some B /\
           process_add_segment maxdist [wpt] points
           = Ok (take (seg_idx c) points ++ [A] ++ block ++ [B]
                   ++ drop (S (S (seg_idx c))) points))
    end /\
    (points <> [] ->
     forall wpts out,
       wpt ∈ wpts ->
       process_add_segment maxdist wpts points = Ok out ->
       exists l1 l2, out = l1 ++ block ++ l2) /\
    (forall lat lon,
       make_bare_point lat lon
       = {| latitude := if (lat =? 0)%float then 0%float else lat;
            longitude := if (lon =? 0)%float then 0%float else lon;
            elevation := None; time := None; other := [] |} /\
       (is_nan lat = false ->
        (latitude (make_bare_point lat lon) =? lat)%float = true) /\
       (is_nan lon = false ->
        (longitude (make_bare_point lat lon) =? lon)%float = true)).
Proof.
  intros H Hd.
  destruct (vertex_idx c) as [v|] eqn:Hv.
  - assert (Hne : points <> []).
    { intros ->. injection H as <-. discriminate Hv. }
    destruct (find_closest_on_segment_indices _ _ _ Hne H) as [_ Hlt].
    destruct (lookup_lt_is_Some_2 points v (Hlt v Hv)) as [V HV].
    pose proof (add_insertion_vertex _ _ _ _ _ _ H Hd Hv HV) as Hins.
    eexists. split.
    + exists V. split_and!; [done | apply duplicate_point_eq | done | done |].
      rewrite (process_add_segment_single _ _ _ _ Hne Hins). simpl.
      by rewrite (take_S_r _ _ _ HV), <- (assoc_L (++)).
    + split; [|apply make_bare_point_spec]. intros _ wpts out Hin Hout.
      apply (process_add_segment_block _ _ _ _ _ _ Hne Hin Hins Hout).
  - pose proof (add_insertion_edge _ _ _ _ H Hd Hv) as Hins.
    eexists. split.
    + split_and!; [done | done |]. intros Hne.
      destruct (no_vertex_on_edge _ _ _ Hne H Hv) as (A & B & HA & HB).
      exists A, B. split_and!; [done | done |].
      rewrite (process_add_segment_single _ _ _ _ Hne Hins). simpl.
      rewrite (take_S_r _ _ _ HA), <- (assoc_L (++)). simpl.
      by rewrite (drop_S _ _ _ HB).
    + split; [|apply make_bare_point_spec]. intros Hne wpts out Hin Hout.
      apply (process_add_segment_block _ _ _ _ _ _ Hne Hin Hins Hout).
Qed.

Lemma add_mode_insertion_witness :
  @process_add_segment small_angle 100 [wpt_middle] sample_points
  = Ok [sample_p0; make_bare_point 0 0.8e-6; make_bare_point 1e-7 0.8e-6;
        make_bare_point 0 0.8e-6; sample_p1] /\
  @process_add_segment small_angle 100 [wpt_start] sample_points
  = Ok [sample_p0; make_bare_point 1e-7 0; sample_p0; sample_p1] /\
  @process_add_segment small_angle 100 [wpt_negative_zero] sample_points
  = Ok [sample_p0;
        {| latitude := 0; longitude := 0; elevation := None; time := None;
           other := [] |};
        sample_p0; sample_p1].
Proof.
  split_and!.
  - edestruct (@add_mode_insertion small_angle 100 sample_points wpt_middle)
      as (block & Hshape & _);
      [vm_compute; reflexivity | vm_compute; reflexivity |].
    simpl in Hshape. destruct Hshape as (-> & _ & Hrun).
    destruct Hrun as (A & B & HA & HB & ->); [discriminate|].
    injection HA as <-. injection HB as <-. vm_compute. reflexivity.
  - edestruct (@add_mode_insertion small_angle 100 sample_points wpt_start)
      as (block & Hshape & _);
      [vm_compute; reflexivity | vm_compute; reflexivity |].
    simpl in Hshape. destruct Hshape as (V & HV & _ & -> & _ & ->).
    injection HV as <-. vm_compute. reflexivity.
  - edestruct (@add_mode_insertion small_angle 100 sample_points wpt_negative_zero)
      as (block & Hshape & _ & Hbare);
      [vm_compute; reflexivity | vm_compute; reflexivity |].
    simpl in Hshape. destruct Hshape as (V & HV & _ & -> & _ & ->).
    injection HV as <-.
    destruct (Hbare (wpt_latitude wpt_negative_zero) (wpt_longitude wpt_negative_zero))
      as (-> & _).
    vm_compute. reflexivity.
Defined.

(** C2.  After an add-mode run every segment is its original sequence of
    points with new points put in: the original points are a subsequence of
    the result, what else the result holds is exactly the points of the
    insertions, and on a non-empty segment the first point stays first.  The
    insertions are those collected with every waypoint matched against the
    original points, their indices lie between 1 and the number of original
    points (for a non-empty segment), and they are applied sorted by index,
    descending, insertions at the same index in the order of the waypoints.
    The waypoints are untouched, and the run returns whenever every
    [find_closest_on_segment] call does. *)
Theorem add_mode_preserves_vertices {L : Libm} (gpx_data : GPX) (maxdist : float) :
  (forall gpx', process_add gpx_data maxdist = Ok gpx' ->
     waypoints gpx' = waypoints gpx_data /\
     Forall2 (fun track track' =>
       Forall2 (fun segment segment' =>
         exists ins,
           collect_insertions maxdist (points segment) (waypoints gpx_data) = Ok ins /\
           points segment' = apply_insertions (sort_desc ins) (points segment) /\
           Sorted (fun a b => b.1 <= a.1)%nat (sort_desc ins) /\
           sort_desc ins ≡ₚ ins /\
           (forall k, at_index k (sort_desc ins) = at_index k ins) /\
           (points segment <> [] ->
              Forall (fun x => 1 <= x.1 <= length (points segment))%nat ins /\
              head (points segment') = head (points segment)) /\
           sublist (points segment) (points segment') /\
           points segment' ≡ₚ points segment ++ concat (snd <$> ins))
         (segments track) (segments track'))
       (tracks gpx_data) (tracks gpx')) /\
  ((forall track segment wpt,
      track ∈ tracks gpx_data -> segment ∈ segments track ->
      wpt ∈ waypoints gpx_data ->
      exists c, find_closest_on_segment wpt (points segment) = Ok c) ->
   exists gpx', process_add gpx_data maxdist = Ok gpx').
Proof.
  assert (Hseg : forall wpts pts pts',
    process_add_segment maxdist wpts pts = Ok pts' ->
    exists ins,
      collect_insertions maxdist pts wpts = Ok ins /\
      pts' = apply_insertions (sort_desc ins) pts /\
      Sorted (fun a b => b.1 <= a.1)%nat (sort_desc ins) /\
      sort_desc ins ≡ₚ ins /\
      (forall k, at_index k (sort_desc ins) = at_index k ins) /\
      (pts <> [] ->
         Forall (fun x => 1 <= x.1 <= length pts)%nat ins /\ head pts' = head pts) /\
      sublist pts pts' /\
      pts' ≡ₚ pts ++ concat (snd <$> ins)).
  { intros wpts pts pts' H. unfold process_add_segment in H. inv_bind H.
    injection H as <-. rename a into ins. exists ins.
    pose proof (collect_insertions_index _ _ _ _ E) as Hpos.
    split_and!; [done | done | apply sort_desc_sorted | apply sort_desc_perm
                | intros k; apply sort_desc_stable | | apply apply_insertions_sublist |].
    - intros Hne. pose proof (collect_insertions_in_range _ _ _ _ Hne E) as Hrng.
      split.
      + apply Forall_forall. intros x Hx.
        rewrite Forall_forall in Hpos, Hrng. specialize (Hpos x Hx).
        specialize (Hrng x Hx). simpl in *. lia.
      + apply apply_insertions_head; [by rewrite sort_desc_perm | done].
    - by rewrite apply_insertions_perm, sort_desc_perm. }
  split.
  - intros gpx' H. unfold process_add in H.
    destruct (waypoints gpx_data) as [|w ws] eqn:Hw.
    + injection H as <-. split; [done|].
      apply Forall_Forall2_diag, Forall_forall. intros track _.
      apply Forall_Forall2_diag, Forall_forall. intros segment _.
      by apply (Hseg []).
    + apply for_each_segment_Ok in H as [Hwp H]. split; [congruence|].
      eapply Forall2_impl; [exact H|]. intros track track' Ht. simpl in Ht.
      eapply Forall2_impl; [exact Ht|]. intros segment segment' Hs. simpl in Hs.
      by apply Hseg.
  - intros Hall. unfold process_add.
    destruct (waypoints gpx_data) as [|w ws] eqn:Hw; [by eexists|].
    apply for_each_segment_total. intros track segment Ht Hs.
    unfold process_add_segment.
    destruct (collect_insertions_total maxdist (points segment) (w :: ws))
      as [ins ->]; [|by eexists].
    intros wpt Hwpt. by eapply Hall.
Qed.

Lemma add_mode_preserves_vertices_witness :
  exists gpx',
    @process_add small_angle sample_gpx 100 = Ok gpx' /\
    waypoints gpx' = waypoints sample_gpx.
Proof.
  destruct (@add_mode_preserves_vertices small_angle sample_gpx 100) as [Hprop _].
  eexists. split; [vm_compute; reflexivity|].
  eapply Hprop. vm_compute. reflexivity.
Defined.

(** ** Floats: rounding

    Facts about [binary_round_aux], the rounding every arithmetic operation
    of the specification ends with: it keeps the sign it is given, never
    yields NaN from a non-negative mantissa, and stays finite when the
    magnitude leaves room. *)

#[local] Abbreviation bra := (binary_round_aux prec emax).

Lemma shr_1_nonneg r : (0 <= shr_m r)%Z -> (0 <= shr_m (shr_1 r))%Z.
Proof. destruct r as [[|[p|p|]|p] r s]; simpl; lia. Qed.

Lemma shr_1_digits r :
  (0 <= shr_m r)%Z ->
  Zdigits2 (shr_m (shr_1 r)) = Z.max 0 (Zdigits2 (shr_m r) - 1).
Proof. destruct r as [[|[p|p|]|p] r s]; simpl; lia. Qed.

Lemma iter_shr_1 p : forall r,
  (0 <= shr_m r)%Z ->
  (0 <= shr_m (SpecFloat.iter_pos shr_1 p r))%Z /\
  Zdigits2 (shr_m (SpecFloat.iter_pos shr_1 p r)) = Z.max 0 (Zdigits2 (shr_m r) - Zpos p).
Proof.
  induction p as [p IH|p IH|]; intros r Hr; simpl.
  - pose proof (shr_1_nonneg r Hr) as H1. pose proof (shr_1_digits r Hr) as D1.
    destruct (IH _ H1) as [H2 D2]. destruct (IH _ H2) as [H3 D3].
    split; [done|]. lia.
  - destruct (IH _ Hr) as [H2 D2]. destruct (IH _ H2) as [H3 D3].
    split; [done|]. lia.
  - split; [by apply shr_1_nonneg | by rewrite shr_1_digits].
Qed.

Lemma digits2_pos_succ p : (digits2_pos (Pos.succ p) <= digits2_pos p + 1)%positive.
Proof. induction p; simpl; lia. Qed.

Lemma Zdigits2_nonneg m : (0 <= Zdigits2 m)%Z.
Proof. destruct m; simpl; lia. Qed.

Lemma round_nearest_even_bounds m l :
  (0 <= m)%Z ->
  (0 <= round_nearest_even m l)%Z /\
  (Zdigits2 (round_nearest_even m l) <= Zdigits2 m + 1)%Z.
Proof.
  intros Hm.
  assert (H1 : (0 <= m + 1)%Z /\ (Zdigits2 (m + 1) <= Zdigits2 m + 1)%Z).
  { split; [lia|]. destruct m as [|p|p]; [simpl; lia | | lia].
    simpl. pose proof (digits2_pos_succ p). rewrite Pos.add_1_r. lia. }
  unfold round_nearest_even.
  destruct l as [|[]]; try (split; [lia | lia]); try done.
  destruct (Z.even m); [split; lia | done].
Qed.

Lemma shr_record_of_loc_m m l : shr_m (shr_record_of_loc m l) = m.
Proof. by destruct l as [|[]]. Qed.

Lemma shr_fexp_bounds m e l :
  (0 <= m)%Z ->
  let '(r, e') := shr_fexp prec emax m e l in
  (0 <= shr_m r)%Z /\
  (e' = e \/ e' = fexp prec emax (Zdigits2 m + e))%Z /\
  (Zdigits2 (shr_m r) + e' <= Z.max (Zdigits2 m + e) e')%Z.
Proof.
  intros Hm. unfold shr_fexp, shr.
  destruct (fexp prec emax (Zdigits2 m + e) - e)%Z as [|p|p] eqn:En.
  - rewrite shr_record_of_loc_m. split_and!; [done | by left | lia].
  - destruct (iter_shr_1 p (shr_record_of_loc m l)) as [H D];
      [by rewrite shr_record_of_loc_m|].
    rewrite shr_record_of_loc_m in D.
    split_and!; [done | right; lia | lia].
  - rewrite shr_record_of_loc_m. split_and!; [done | by left | lia].
Qed.

Lemma bra_signed s m e l : (0 <= m)%Z -> sf_signed s (bra s m e l).
Proof.
  intros Hm. unfold binary_round_aux.
  pose proof (shr_fexp_bounds m e l Hm) as H1.
  destruct (shr_fexp prec emax m e l) as [r1 e1]. destruct H1 as (H1 & _).
  destruct (round_nearest_even_bounds (shr_m r1) (loc_of_shr_record r1) H1) as [H2 _].
  pose proof (shr_fexp_bounds _ e1 loc_Exact H2) as H3.
  destruct (shr_fexp prec emax _ e1 loc_Exact) as [r2 e2]. destruct H3 as (H3 & _).
  destruct (shr_m r2) as [|p|p]; [done | | lia].
  by destruct (_ <=? _)%Z.
Qed.

Lemma bra_finite s m e l :
  (0 <= m)%Z -> (e <= 971)%Z -> (Zdigits2 m + e <= 1023)%Z ->
  sf_finite (bra s m e l) = true.
Proof.
  intros Hm He Hd. unfold binary_round_aux.
  pose proof (shr_fexp_bounds m e l Hm) as H1.
  destruct (shr_fexp prec emax m e l) as [r1 e1]. destruct H1 as (H1 & E1 & D1).
  destruct (round_nearest_even_bounds (shr_m r1) (loc_of_shr_record r1) H1) as [H2 D2].
  pose proof (shr_fexp_bounds _ e1 loc_Exact H2) as H3.
  destruct (shr_fexp prec emax _ e1 loc_Exact) as [r2 e2]. destruct H3 as (H3 & E2 & D3).
  destruct (shr_m r2) as [|p|p]; [done | | lia].
  assert (e2 <= 971)%Z; [|by destruct (Z.leb_spec e2 (emax - prec)); [done | unfold emax, prec in *; lia]].
  pose proof (Zdigits2_nonneg (shr_m r1)).
  pose proof (Zdigits2_nonneg m).
  unfold fexp, emin, emax, prec in *. lia.
Qed.

(** ** Validity *)

Lemma digits2_pos_size p : digits2_pos p = Pos.size p.
Proof. induction p; simpl; congruence. Qed.

Lemma digits2_pos_log2 p : Zpos (digits2_pos p) = (Z.log2 (Zpos p) + 1)%Z.
Proof.
  destruct p; simpl; rewrite ?digits2_pos_size; lia.
Qed.

Lemma digits2_pos_mul p q :
  (Zpos (digits2_pos (p * q)) <= Zpos (digits2_pos p) + Zpos (digits2_pos q))%Z.
Proof.
  rewrite !digits2_pos_log2, Pos2Z.inj_mul.
  pose proof (Z.log2_mul_above (Zpos p) (Zpos q)). lia.
Qed.

Lemma bounded_inv m e :
  bounded prec emax m e = true ->
  (Zpos (digits2_pos m) <= 53)%Z /\ (e <= 971)%Z.
Proof.
  unfold bounded, canonical_mantissa, fexp, emin, emax, prec.
  intros [H1 H2]%andb_prop. apply Z.eqb_eq in H1. apply Z.leb_le in H2. lia.
Qed.


Lemma SFmul_finite a b :
  valid_binary a = true -> valid_binary b = true ->
  sf_finite a = true -> sf_finite b = true ->
  (sf_exp (-1074) a + sf_exp (-1074) b <= 917)%Z ->
  sf_finite (SF64mul a b) = true.
Proof.
  destruct a as [sa|sa| |sa ma ea], b as [sb|sb| |sb mb eb]; try done.
  simpl. intros [Da Ea]%bounded_inv [Db Eb]%bounded_inv _ _ He.
  apply bra_finite; [lia | lia |].
  pose proof (digits2_pos_mul ma mb). simpl. lia.
Qed.

Lemma SFmul_signed a b :
  sf_finite a = true -> sf_finite b = true ->
  exists s, sf_signed s (SF64mul a b).
Proof.
  destruct a as [sa|sa| |sa ma ea], b as [sb|sb| |sb mb eb]; try done; intros _ _;
    try (by eexists).
  eexists. apply bra_signed. lia.
Qed.

Lemma sf_signed_not_nan s a : sf_signed s a -> sf_nan a = false.
Proof. by destruct a. Qed.


Lemma valid_exp (x : float) : (sf_exp (-1074) (Prim2SF x) <= 971)%Z.
Proof.
  pose proof (Prim2SF_valid x) as H.
  destruct (Prim2SF x) as [s|s| |s m e]; simpl; try lia.
  by apply bounded_inv in H as [_ H].
Qed.

Lemma math_radians_finite (x : float) :
  is_finite x = true -> is_finite (math_radians x) = true.
Proof.
  rewrite !is_finite_spec. unfold math_radians. rewrite mul_spec. intros H.
  apply SFmul_finite; [apply Prim2SF_valid | apply Prim2SF_valid | done | done |].
  pose proof (valid_exp x).
  change (Prim2SF degToRad) with (S754_finite false 5030569068109113 (-58)).
  simpl. lia.
Qed.

Lemma abs_le_1_spec (c : float) :
  (abs c <=? 1)%float = true ->
  sf_finite (Prim2SF c) = true /\ (sf_exp (-1074) (Prim2SF c) <= -52)%Z.
Proof.
  rewrite leb_spec, abs_spec.
  change (Prim2SF 1) with (S754_finite false 4503599627370496 (-52)).
  destruct (Prim2SF c) as [s|s| |s m e]; try done.
  unfold SFleb, SFabs, SFcompare, sf_exp, sf_finite.
  destruct (Z.compare_spec e (-52)) as [E|E|E]; intros Hle; (split; [done|]); lia.
Qed.

Lemma abs_le_2_spec (c : float) :
  (abs c <=? 2)%float = true ->
  sf_finite (Prim2SF c) = true /\ (sf_exp (-1074) (Prim2SF c) <= -51)%Z.
Proof.
  rewrite leb_spec, abs_spec.
  change (Prim2SF 2) with (S754_finite false 4503599627370496 (-51)).
  destruct (Prim2SF c) as [s|s| |s m e]; try done.
  unfold SFleb, SFabs, SFcompare, sf_exp, sf_finite.
  destruct (Z.compare_spec e (-51)) as [E|E|E]; intros Hle; (split; [done|]); lia.
Qed.

Lemma mul_unit_finite (c1 c2 : float) :
  (abs c1 <=? 1)%float = true -> (abs c2 <=? 1)%float = true ->
  is_finite (c1 * c2)%float = true.
Proof.
  intros [F1 E1]%abs_le_1_spec [F2 E2]%abs_le_1_spec.
  rewrite is_finite_spec, mul_spec.
  apply SFmul_finite; [apply Prim2SF_valid | apply Prim2SF_valid | done | done | lia].
Qed.

Lemma abs_le_1_finite (c : float) : (abs c <=? 1)%float = true -> is_finite c = true.
Proof. intros [F _]%abs_le_1_spec. by rewrite is_finite_spec. Qed.

(** ** Not-a-number never comes from finite operands *)

Lemma SFbinary_normalize_signed m e : exists s, sf_signed s (binary_normalize prec emax m e false).
Proof.
  destruct m as [|p|p]; simpl; [by exists false | |];
    unfold binary_round; destruct (shl_align _ _ _) as [mz ez];
    eexists; apply bra_signed; lia.
Qed.

Lemma sub_finite_not_nan (x y : float) :
  is_finite x = true -> is_finite y = true -> is_nan (x - y)%float = false.
Proof.
  rewrite !is_finite_spec, is_nan_spec, sub_spec.
  destruct (Prim2SF x) as [sx|sx| |sx mx ex], (Prim2SF y) as [sy|sy| |sy my ey];
    try done; intros _ _.
  - by destruct sx, sy.
  - unfold SF64sub, SFsub.
    destruct (SFbinary_normalize_signed
      (cond_Zopp sx (Zpos (fst (shl_align mx ex (Z.min ex ey)))) -
       cond_Zopp sy (Zpos (fst (shl_align my ey (Z.min ex ey))))) (Z.min ex ey)) as [s Hs].
    by eapply sf_signed_not_nan.
Qed.

Lemma add_finite_not_nan (x y : float) :
  is_finite x = true -> is_nan y = false -> is_nan (x + y)%float = false.
Proof.
  rewrite !is_finite_spec, !is_nan_spec, add_spec.
  destruct (Prim2SF x) as [sx|sx| |sx mx ex], (Prim2SF y) as [sy|sy| |sy my ey];
    try done; intros _ _.
  - by destruct sx, sy.
  - unfold SF64add, SFadd.
    destruct (SFbinary_normalize_signed
      (cond_Zopp sx (Zpos (fst (shl_align mx ex (Z.min ex ey)))) +
       cond_Zopp sy (Zpos (fst (shl_align my ey (Z.min ex ey))))) (Z.min ex ey)) as [s Hs].
    by eapply sf_signed_not_nan.
Qed.

Lemma mul_finite_not_nan (x y : float) :
  is_finite x = true -> is_finite y = true -> is_nan (x * y)%float = false.
Proof.
  rewrite !is_finite_spec, is_nan_spec, mul_spec. intros Hx Hy.
  destruct (SFmul_signed _ _ Hx Hy) as [s Hs]. by eapply sf_signed_not_nan.
Qed.

Lemma SFdiv_core_nonneg m1 e1 m2 e2 :
  let '(q, _, _) := SFdiv_core_binary prec emax (Zpos m1) e1 (Zpos m2) e2 in (0 <= q)%Z.
Proof.
  unfold SFdiv_core_binary.
  set (s := (_ - _ - _)%Z).
  set (m' := match s with Zpos _ => Z.shiftl (Zpos m1) s | Z0 => Zpos m1 | Zneg _ => 0%Z end).
  assert (Hm' : (0 <= m')%Z).
  { unfold m'. destruct s; try lia. apply Z.shiftl_nonneg. lia. }
  pose proof (Z.div_pos m' (Zpos m2) Hm' ltac:(lia)) as Hq.
  unfold Z.div in Hq. by destruct (Z.div_eucl m' (Zpos m2)).
Qed.

Lemma div_2_not_nan (x : float) : is_nan x = false -> is_nan (x / 2)%float = false.
Proof.
  rewrite !is_nan_spec, div_spec.
  change (Prim2SF 2) with (S754_finite false 4503599627370496 (-51)).
  destruct (Prim2SF x) as [sx|sx| |sx mx ex]; try done; intros _.
  unfold SF64div, SFdiv.
  pose proof (SFdiv_core_nonneg mx ex 4503599627370496 (-51)) as Hq.
  destruct (SFdiv_core_binary _ _ _ _ _ _) as [[q e] l].
  eapply sf_signed_not_nan. by apply bra_signed.
Qed.

(** ** Signs *)


Lemma leb_0_spec (x : float) : (0 <=? x)%float = sf_nonneg (Prim2SF x).
Proof.
  rewrite leb_spec. change (Prim2SF 0) with (S754_zero false).
  by destruct (Prim2SF x) as [s|[]| |[] m e].
Qed.

Lemma sf_signed_nonneg a : sf_signed false a -> sf_nonneg a = true.
Proof. destruct a; simpl; try done; by intros ->. Qed.

Lemma SFsqrt_core_nonneg m e :
  let '(q, _, _) := SFsqrt_core_binary prec emax (Zpos m) e in (0 <= q)%Z.
Proof.
  unfold SFsqrt_core_binary.
  set (s := (_ - _)%Z).
  set (m' := match s with Zpos _ => Z.shiftl (Zpos m) s | Z0 => Zpos m | Zneg _ => 0%Z end).
  assert (Hm' : (0 <= m')%Z).
  { unfold m'. destruct s; try lia. apply Z.shiftl_nonneg. lia. }
  pose proof (Z.sqrtrem_spec m' Hm') as H.
  destruct (Z.sqrtrem m') as [q r]. lia.
Qed.

Lemma sqrt_nonneg (x : float) :
  is_nan (sqrt x) = false -> (0 <=? sqrt x)%float = true.
Proof.
  rewrite is_nan_spec, leb_0_spec, sqrt_spec.
  destruct (Prim2SF x) as [s|[]| |[] m e]; try done; intros _.
  unfold SF64sqrt, SFsqrt.
  pose proof (SFsqrt_core_nonneg m e) as Hq.
  destruct (SFsqrt_core_binary _ _ _ _) as [[q e'] l].
  apply sf_signed_nonneg. by apply bra_signed.
Qed.

(** The square root of a negative number is NaN. *)
Lemma sqrt_negative (x : float) : (x <? 0)%float = true -> is_nan (sqrt x) = true.
Proof.
  rewrite ltb_spec, is_nan_spec, sqrt_spec.
  change (Prim2SF 0) with (S754_zero false).
  by destruct (Prim2SF x) as [s|[]| |[] m e].
Qed.

Lemma ltb_not_nan_l (x y : float) : (x <? y)%float = true -> is_nan x = false.
Proof.
  rewrite ltb_spec, is_nan_spec. by destruct (Prim2SF x).
Qed.

Lemma mul_pos_nonneg (k x : float) :
  (exists m e, Prim2SF k = S754_finite false m e) ->
  (0 <=? x)%float = true -> (0 <=? k * x)%float = true.
Proof.
  intros (m & e & Hk). rewrite !leb_0_spec, mul_spec, Hk.
  destruct (Prim2SF x) as [s|[]| |[] mx ex]; try done; intros _.
  apply sf_signed_nonneg. apply bra_signed. lia.
Qed.

(** ** Negation *)

Lemma SFopp_bra s m e l : SFopp (bra s m e l) = bra (negb s) m e l.
Proof.
  unfold binary_round_aux. destruct (shr_fexp _ _ _ _ _) as [r1 e1].
  destruct (shr_fexp _ _ _ _ _) as [r2 e2].
  destruct (shr_m r2); try done. by destruct (_ <=? _)%Z.
Qed.

Lemma is_nan_opp (x : float) : is_nan (- x) = is_nan x.
Proof. rewrite !is_nan_spec, opp_spec. by destruct (Prim2SF x). Qed.

Lemma is_infinity_opp (x : float) : is_infinity (- x) = is_infinity x.
Proof. rewrite !is_infinity_spec, opp_spec. by destruct (Prim2SF x). Qed.

Lemma is_finite_opp (x : float) : is_finite (- x) = is_finite x.
Proof. rewrite !is_finite_spec, opp_spec. by destruct (Prim2SF x). Qed.

Lemma abs_opp (x : float) : abs (- x) = abs x.
Proof.
  apply Prim2SF_inj. rewrite !abs_spec, opp_spec. by destruct (Prim2SF x).
Qed.

Lemma mul_opp_opp (x : float) : (- x * - x)%float = (x * x)%float.
Proof.
  apply Prim2SF_inj. rewrite !mul_spec, opp_spec.
  destruct (Prim2SF x) as [[]|[]| |[] m e]; done.
Qed.

Lemma mul_comm (x y : float) : (x * y)%float = (y * x)%float.
Proof.
  apply Prim2SF_inj. rewrite !mul_spec.
  destruct (Prim2SF x) as [sx|sx| |sx mx ex], (Prim2SF y) as [sy|sy| |sy my ey];
    simpl; rewrite ?(xorb_comm sx sy); try done.
  by rewrite Pos.mul_comm, Z.add_comm.
Qed.

Lemma div_opp_l (x y : float) : (- x / y)%float = (- (x / y))%float.
Proof.
  apply Prim2SF_inj. rewrite opp_spec, !div_spec, opp_spec.
  destruct (Prim2SF x) as [sx|sx| |sx mx ex], (Prim2SF y) as [sy|sy| |sy my ey];
    simpl; rewrite ?negb_xorb_l; try done.
  destruct (SFdiv_core_binary _ _ _ _ _ _) as [[q e] l].
  by rewrite SFopp_bra, negb_xorb_l.
Qed.

Lemma SFopp_binary_normalize m e :
  m <> 0%Z ->
  SFopp (binary_normalize prec emax m e false) = binary_normalize prec emax (- m) e false.
Proof.
  destruct m as [|p|p]; [done | |]; intros _; simpl; unfold binary_round;
    destruct (shl_align _ _ _) as [mz ez]; by rewrite SFopp_bra.
Qed.

(** [y - x] is the negation of [x - y], except that both are [+0] when the
    difference is an exact zero. *)
Lemma sub_swap (x y : float) :
  (y - x)%float = (- (x - y))%float \/
  ((x - y)%float = 0%float /\ (y - x)%float = 0%float).
Proof.
  assert (H : SF64sub (Prim2SF y) (Prim2SF x) = SFopp (SF64sub (Prim2SF x) (Prim2SF y)) \/
              (SF64sub (Prim2SF x) (Prim2SF y) = S754_zero false /\
               SF64sub (Prim2SF y) (Prim2SF x) = S754_zero false)).
  { destruct (Prim2SF x) as [sx|sx| |sx mx ex], (Prim2SF y) as [sy|sy| |sy my ey];
      simpl; try (by left); try (by destruct sx, sy; auto).
    rewrite (Z.min_comm ey ex).
    set (A := cond_Zopp sx _). set (B := cond_Zopp sy _).
    destruct (Z.eq_dec (A - B)%Z 0%Z) as [E|E].
    - right. replace (B - A)%Z with 0%Z by lia. by rewrite E.
    - left. rewrite SFopp_binary_normalize by done. f_equal. lia. }
  destruct H as [H|[H1 H2]].
  - left. apply Prim2SF_inj. by rewrite opp_spec, !sub_spec.
  - right. split; apply Prim2SF_inj; by rewrite sub_spec.
Qed.

(** ** Floats: equality *)

(** [x == y] holds for identical numbers and for two zeros of any signs. *)
Lemma eqb_true_cases (x y : float) :
  (x =? y)%float = true ->
  x = y \/ ((x = 0%float \/ x = (- 0)%float) /\ (y = 0%float \/ y = (- 0)%float)).
Proof.
  rewrite FloatAxioms.eqb_spec. unfold SFeqb.
  assert (Hz : forall z s, Prim2SF z = S754_zero s -> z = 0%float \/ z = (- 0)%float).
  { intros z s Hz. rewrite <- (SF2Prim_Prim2SF z), Hz. destruct s; auto. }
  destruct (Prim2SF x) as [sx|sx| |sx mx ex] eqn:Ex,
           (Prim2SF y) as [sy|sy| |sy my ey] eqn:Ey;
    unfold SFcompare; try done; try (by destruct sx); try (by destruct sy).
  - intros _. right. eauto.
  - intros H. left. apply Prim2SF_inj. rewrite Ex, Ey. by destruct sx, sy.
  - intros H. left. apply Prim2SF_inj. rewrite Ex, Ey.
    change (Pos.compare_cont Eq mx my) with (Pos.compare mx my) in H.
    destruct sx, sy; try done; destruct (Z.compare_spec ex ey) as [->| |]; try done;
      destruct (Pos.compare_spec mx my) as [->| |]; done.
Qed.

(** ** The distance *)

Lemma bind_assoc {A B C} (m : result A) (f : A -> result B) (g : B -> result C) :
  (m ≫= f) ≫= g = m ≫= fun x => f x ≫= g.
Proof. by destruct m. Qed.

Lemma math_1_Ok (f : float -> float) (x r : float) :
  math_1 f x = Ok r ->
  r = f x /\
  (is_nan x = false -> is_nan r = false) /\
  (is_finite x = true -> is_infinity r = false).
Proof.
  unfold math_1.
  destruct (is_nan (f x)) eqn:Hn, (is_nan x) eqn:Hx, (is_infinity (f x)) eqn:Hi,
    (is_finite x) eqn:Hf; simpl; try done; intros [= <-]; by rewrite ?Hn, ?Hi.
Qed.

(** A libm function that is odd stays odd under [math_1]. *)
Lemma math_1_opp (f : float -> float) (x : float) :
  (forall y, f (- y)%float = (- f y)%float) ->
  math_1 f (- x)%float = r ← math_1 f x; Ok (- r)%float.
Proof.
  intros Hodd. unfold math_1.
  rewrite Hodd, !is_nan_opp, is_infinity_opp, is_finite_opp.
  by repeat case_match.
Qed.

Lemma pow2_opp (x : float) : pow2 (- x)%float = pow2 x.
Proof. unfold pow2. by rewrite mul_opp_opp, is_finite_opp. Qed.

Section Distance.
Context {L : Libm} {HL : LibmLaws L}.

(** The squared sine of half a difference does not depend on the order of
    the two operands. *)
Lemma sin_squared_swap (x y : float) :
  math_sin ((y - x) / 2)%float ≫= pow2 = math_sin ((x - y) / 2)%float ≫= pow2.
Proof.
  destruct (sub_swap x y) as [->|[-> ->]]; [|reflexivity].
  rewrite div_opp_l. unfold math_sin. rewrite (math_1_opp _ _ sin_odd).
  rewrite bind_assoc. destruct (math_1 m_sin _); simpl; [apply pow2_opp | done].
Qed.

Lemma haversine_term_unfold lat1 lon1 lat2 lon2 :
  haversine_term lat1 lon1 lat2 lon2 =
    q1 ← math_sin ((math_radians lat2 - math_radians lat1) / 2)%float ≫= pow2;
    c ← (c1 ← math_cos (math_radians lat1);
         c2 ← math_cos (math_radians lat2); Ok (c1 * c2)%float);
    q2 ← math_sin ((math_radians lon2 - math_radians lon1) / 2)%float ≫= pow2;
    Ok (q1 + c * q2)%float.
Proof.
  unfold haversine_term. rewrite !bind_assoc.
  destruct (math_sin ((math_radians lat2 - _) / 2)%float) as [s1|]; simpl; [|done].
  destruct (pow2 s1) as [q1|]; simpl; [|done].
  destruct (math_cos (math_radians lat1)) as [c1|]; simpl; [|done].
  destruct (math_cos (math_radians lat2)) as [c2|]; simpl; [|done].
  destruct (math_sin _) as [s2|]; simpl; [|done]. by destruct (pow2 s2).
Qed.

Lemma cos_product_swap (x y : float) :
  (c1 ← math_cos x; c2 ← math_cos y; Ok (c1 * c2)%float)
  = (c1 ← math_cos y; c2 ← math_cos x; Ok (c1 * c2)%float).
Proof.
  unfold math_cos.
  destruct (math_1 m_cos x) as [cx|ex] eqn:Ex, (math_1 m_cos y) as [cy|ey] eqn:Ey;
    simpl; rewrite ?Ex, ?Ey; simpl; try done.
  - by rewrite mul_comm.
  - apply math_1_Raise in Ex, Ey. congruence.
Qed.

Lemma haversine_term_sym lat1 lon1 lat2 lon2 :
  haversine_term lat1 lon1 lat2 lon2 = haversine_term lat2 lon2 lat1 lon1.
Proof.
  rewrite !haversine_term_unfold.
  rewrite (sin_squared_swap (math_radians lat1)), (sin_squared_swap (math_radians lon1)).
  by rewrite cos_product_swap.
Qed.

Lemma haversine_sym lat1 lon1 lat2 lon2 :
  haversine lat1 lon1 lat2 lon2 = haversine lat2 lon2 lat1 lon1.
Proof. unfold haversine. by rewrite haversine_term_sym. Qed.
End Distance.

Lemma pow2_Ok (x q : float) : pow2 x = Ok q -> q = (x * x)%float.
Proof. unfold pow2. case_match; [done|]. by intros [= <-]. Qed.

Lemma math_1_finite (f : float -> float) (x : float) :
  is_finite (f x) = true -> math_1 f x = Ok (f x).
Proof.
  unfold math_1, is_finite.
  by destruct (is_nan (f x)), (is_infinity (f x)).
Qed.

Lemma pow2_finite (x : float) :
  is_finite (x * x)%float = true -> pow2 x = Ok (x * x)%float.
Proof.
  unfold pow2, is_finite.
  by destruct (is_nan (x * x)), (is_infinity (x * x)).
Qed.

(** [0 + p * 0] is [+0] for every finite [p], whatever the sign of [p]. *)
Lemma add_0_mul_0 (p : float) :
  is_finite p = true -> (0 + p * 0)%float = 0%float.
Proof.
  rewrite is_finite_spec. intros Hp. apply Prim2SF_inj.
  rewrite add_spec, mul_spec. change (Prim2SF 0) with (S754_zero false).
  by destruct (Prim2SF p) as [[]|[]| |[] m e].
Qed.

Section DistanceValues.
Context {L : Libm} {HL : LibmLaws L}.

Lemma math_cos_finite (x : float) :
  is_finite x = true ->
  math_cos x = Ok (m_cos x) /\ (abs (m_cos x) <=? 1)%float = true.
Proof.
  intros Hx. pose proof (cos_bounded x Hx) as Hc. split; [|done].
  apply math_1_finite. by apply abs_le_1_finite.
Qed.

(** The squared sine, when it evaluates on a number, is finite. *)
Lemma sin_squared_finite (u s q : float) :
  is_nan u = false -> math_sin u = Ok s -> pow2 s = Ok q -> is_finite q = true.
Proof.
  intros Hu Hs Hq. apply math_1_Ok in Hs as (-> & Hn & _).
  apply pow2_Ok in Hq as ->.
  destruct (sin_bounded u) as [Hnan|Hb]; [by rewrite Hn in Hnan|].
  by apply mul_unit_finite.
Qed.

(** For finite coordinates the term under the square root is a number. *)
Lemma haversine_term_not_nan lat1 lon1 lat2 lon2 a :
  is_finite lat1 = true -> is_finite lon1 = true ->
  is_finite lat2 = true -> is_finite lon2 = true ->
  haversine_term lat1 lon1 lat2 lon2 = Ok a -> is_nan a = false.
Proof.
  intros F1 F2 F3 F4 H. apply math_radians_finite in F1, F2, F3, F4.
  unfold haversine_term in H.
  inv_bind H. rename a0 into s1. inv_bind H. rename a0 into q1.
  inv_bind H. rename a0 into c1. inv_bind H. rename a0 into c2.
  inv_bind H. rename a0 into s2. inv_bind H. rename a0 into q2.
  injection H as <-.
  assert (Hq1 : is_finite q1 = true).
  { apply (sin_squared_finite _ s1 q1) in E; [done | | done].
    by apply div_2_not_nan, sub_finite_not_nan. }
  assert (Hq2 : is_finite q2 = true).
  { apply (sin_squared_finite _ s2 q2) in E3; [done | | done].
    by apply div_2_not_nan, sub_finite_not_nan. }
  destruct (math_cos_finite _ F1) as [Hc1 Hb1]. destruct (math_cos_finite _ F3) as [Hc2 Hb2].
  rewrite Hc1 in E1. rewrite Hc2 in E2. injection E1 as <-. injection E2 as <-.
  apply add_finite_not_nan; [done|].
  apply mul_finite_not_nan; [by apply mul_unit_finite | done].
Qed.

Lemma haversine_nonneg lat1 lon1 lat2 lon2 d :
  is_finite lat1 = true -> is_finite lon1 = true ->
  is_finite lat2 = true -> is_finite lon2 = true ->
  haversine lat1 lon1 lat2 lon2 = Ok d -> (0 <=? d)%float = true.
Proof.
  intros F1 F2 F3 F4 H. unfold haversine in H.
  inv_bind H. inv_bind H. rename a0 into r. inv_bind H. rename a0 into s.
  injection H as <-.
  pose proof (haversine_term_not_nan _ _ _ _ _ F1 F2 F3 F4 E) as Ha.
  apply math_1_Ok in E0 as (-> & Hr & _). specialize (Hr Ha).
  pose proof (sqrt_nonneg _ Hr) as Hr0.
  apply math_1_Ok in E1 as (-> & Hs & _). specialize (Hs Hr).
  destruct (asin_nonneg _ Hr0) as [Hnan|Hs0]; [by rewrite Hs in Hnan|].
  apply mul_pos_nonneg; [|done]. eexists _, _. vm_compute. reflexivity.
Qed.

(** Every distance between points with finite coordinates is a finite
    number: the arc sine is at most 2. *)
Lemma haversine_below_infinity lat1 lon1 lat2 lon2 d :
  is_finite lat1 = true -> is_finite lon1 = true ->
  is_finite lat2 = true -> is_finite lon2 = true ->
  haversine lat1 lon1 lat2 lon2 = Ok d -> (d <? infinity)%float = true.
Proof.
  intros F1 F2 F3 F4 H. unfold haversine in H.
  inv_bind H. inv_bind H. rename a0 into r. inv_bind H. rename a0 into s.
  injection H as <-. apply finite_lt_infinity.
  pose proof (haversine_term_not_nan _ _ _ _ _ F1 F2 F3 F4 E) as Ha.
  apply math_1_Ok in E0 as (-> & Hr & _). specialize (Hr Ha).
  apply math_1_Ok in E1 as (-> & Hs & _). specialize (Hs Hr).
  destruct (asin_bounded (sqrt a)) as [Hnan|Hb]; [by rewrite Hs in Hnan|].
  apply abs_le_2_spec in Hb as [Hf He].
  rewrite is_finite_spec, mul_spec.
  apply SFmul_finite; [apply Prim2SF_valid | apply Prim2SF_valid | done | done |].
  change (Prim2SF 12742000) with (S754_finite false 6840809160704000 (-29)).
  simpl. lia.
Qed.

(** The squared sine at [+0] and [-0] is [+0]. *)
Lemma sin_squared_zero (u : float) :
  u = 0%float \/ u = (- 0)%float -> math_sin u ≫= pow2 = Ok 0%float.
Proof.
  assert (H0 : math_sin 0 = Ok 0%float).
  { unfold math_sin. rewrite <- sin_zero at 2. apply math_1_finite.
    by rewrite sin_zero. }
  intros [->| ->]; [by rewrite H0|].
  unfold math_sin. rewrite (math_1_opp _ _ sin_odd). fold (math_sin 0).
  by rewrite H0.
Qed.

(** Equal coordinates, in the sense of [==], give a half difference in
    radians of [+0] or [-0]. *)
Lemma half_difference_zero (x y : float) :
  is_finite x = true -> (x =? y)%float = true ->
  let u := ((math_radians y - math_radians x) / 2)%float in
  u = 0%float \/ u = (- 0)%float.
Proof.
  intros Fx [<-|[Hx Hy]]%eqb_true_cases.
  - left. rewrite sub_diag by (by apply math_radians_finite). reflexivity.
  - destruct Hx as [-> | ->], Hy as [-> | ->]; vm_compute; auto.
Qed.

Lemma haversine_equal lat1 lon1 lat2 lon2 :
  is_finite lat1 = true -> is_finite lon1 = true ->
  is_finite lat2 = true -> is_finite lon2 = true ->
  (lat1 =? lat2)%float = true -> (lon1 =? lon2)%float = true ->
  haversine lat1 lon1 lat2 lon2 = Ok 0%float.
Proof.
  intros F1 F2 F3 F4 Elat Elon.
  unfold haversine. rewrite haversine_term_unfold.
  rewrite (sin_squared_zero _ (half_difference_zero _ _ F1 Elat)).
  rewrite (sin_squared_zero _ (half_difference_zero _ _ F2 Elon)).
  apply math_radians_finite in F1, F3.
  destruct (math_cos_finite _ F1) as [Hc1 Hb1]. destruct (math_cos_finite _ F3) as [Hc2 Hb2].
  rewrite Hc1, Hc2. simpl.
  rewrite add_0_mul_0 by (by apply mul_unit_finite).
  change (math_sqrt 0) with (Ok 0%float). simpl.
  unfold math_asin. rewrite (math_1_finite m_asin) by (by rewrite asin_zero).
  simpl. rewrite asin_zero. reflexivity.
Qed.
End DistanceValues.

(** ** [small_angle] obeys the laws *)

Lemma below_small_le_1 (y : float) :
  (y <? 0x1p-26)%float = true -> (y <=? 1)%float = true.
Proof.
  rewrite ltb_spec, leb_spec.
  change (Prim2SF 0x1p-26) with (S754_finite false 4503599627370496 (-78)).
  change (Prim2SF 1) with (S754_finite false 4503599627370496 (-52)).
  destruct (Prim2SF y) as [s|[]| |[] m e]; try done.
  unfold SFltb, SFleb, SFcompare.
  destruct (Z.compare_spec e (-78)), (Z.compare_spec e (-52)); try done; lia.
Qed.

Lemma below_small_le_2 (y : float) :
  (y <? 0x1p-26)%float = true -> (y <=? 2)%float = true.
Proof.
  rewrite ltb_spec, leb_spec.
  change (Prim2SF 0x1p-26) with (S754_finite false 4503599627370496 (-78)).
  change (Prim2SF 2) with (S754_finite false 4503599627370496 (-51)).
  destruct (Prim2SF y) as [s|[]| |[] m e]; try done.
  unfold SFltb, SFleb, SFcompare.
  destruct (Z.compare_spec e (-78)), (Z.compare_spec e (-51)); try done; lia.
Qed.

#[global] Instance small_angle_laws : LibmLaws small_angle.
Proof.
  split; simpl.
  - reflexivity.
  - intros x. unfold small_sin. rewrite abs_opp.
    by destruct (abs x <? _)%float.
  - intros x. unfold small_sin.
    destruct (abs x <? _)%float eqn:E; [right | by left].
    by apply below_small_le_1.
  - intros x _. reflexivity.
  - reflexivity.
  - intros x Hx. unfold small_sin.
    destruct (abs x <? _)%float; [by right | by left].
  - intros x. unfold small_sin.
    destruct (abs x <? _)%float eqn:E; [right | by left].
    by apply below_small_le_2.
Qed.

(** ** Segments with no point or one point *)

(** C9.  On a segment with no points [find_closest_on_segment] returns an
    infinite distance.  On a segment with exactly one point [p] the loop over
    the edges does nothing, and for finite coordinates the function returns
    the distance from the waypoint to [p] itself, with [p]'s coordinates,
    [t = 0] and vertex 0 (or raises what computing that distance raises). *)
Theorem closest_on_short_segment {L : Libm} {HL : LibmLaws L}
    (wpt : GPXWaypoint) (p : GPXTrackPoint) :
  is_finite (wpt_latitude wpt) = true -> is_finite (wpt_longitude wpt) = true ->
  is_finite (latitude p) = true -> is_finite (longitude p) = true ->
  find_closest_on_segment wpt [] =
    Ok {| min_dist := infinity; seg_idx := 0; projected_lat := 0;
          projected_lon := 0; t_param := 0; vertex_idx := None |} /\
  scan_edges wpt 0 [p] best_init = Ok best_init /\
  find_closest_on_segment wpt [p] =
    d ← haversine (wpt_latitude wpt) (wpt_longitude wpt) (latitude p) (longitude p);
    Ok {| min_dist := d; seg_idx := 0; projected_lat := latitude p;
          projected_lon := longitude p; t_param := 0; vertex_idx := Some 0%nat |}.
Proof.
  intros F1 F2 F3 F4. split_and!; [done | done |].
  unfold find_closest_on_segment. simpl.
  destruct (haversine _ _ _ _) as [d|e] eqn:Hd; simpl; [|done].
  change (best_dist best_init) with infinity.
  by rewrite (haversine_below_infinity _ _ _ _ _ F1 F2 F3 F4 Hd).
Qed.

Lemma closest_on_short_segment_witness :
  @find_closest_on_segment small_angle wpt_start [] =
    Ok {| min_dist := infinity; seg_idx := 0; projected_lat := 0;
          projected_lon := 0; t_param := 0; vertex_idx := None |} /\
  @scan_edges small_angle wpt_start 0 [sample_p0] best_init = Ok best_init /\
  @find_closest_on_segment small_angle wpt_start [sample_p0] =
    Ok {| min_dist := 0.011119492664455874; seg_idx := 0;
          projected_lat := latitude sample_p0;
          projected_lon := longitude sample_p0; t_param := 0;
          vertex_idx := Some 0%nat |}.
Proof.
  apply (@closest_on_short_segment small_angle small_angle_laws wpt_start sample_p0);
    reflexivity.
Defined.

(** ** The projection *)

(** C5.  The projector fails only when [math.cos] of the mean latitude
    does, and with a libm that obeys [LibmLaws] it returns whenever the mean
    latitude [(alat + blat) / 2] is finite.  It returns [t] with
    [0 <= t <= 1], and the point it returns is [a + t * (b - a)] on the
    original coordinates, except on the zero-length path ([len_sq == 0]),
    where it is [a] itself with [t = 0].  Coinciding endpoints take that
    path: with [alat], [alon] for both and the scaled longitude finite, the
    result is [(alat, alon, 0)]. *)
Theorem project_onto_segment_spec {L : Libm} (wlat wlon alat alon blat blon : float) :
  match project_onto_segment wlat wlon alat alon blat blon with
  | Raise e => math_cos (math_radians ((alat + blat) / 2)%float) = Raise e
  | Ok (plat, plon, t) =>
      (0 <=? t)%float = true /\ (t <=? 1)%float = true /\
      ((plat = (alat + t * (blat - alat))%float /\
        plon = (alon + t * (blon - alon))%float) \/
       (plat = alat /\ plon = alon /\ t = 0%float))
  end /\
  (LibmLaws L ->
   is_finite ((alat + blat) / 2)%float = true ->
   exists plat plon t,
     project_onto_segment wlat wlon alat alon blat blon = Ok (plat, plon, t)) /\
  (forall cos_lat,
     math_cos (math_radians ((alat + alat) / 2)%float) = Ok cos_lat ->
     is_finite alat = true ->
     is_finite (alon * cos_lat)%float = true ->
     project_onto_segment wlat wlon alat alon alat alon = Ok (alat, alon, 0%float)).
Proof.
  split_and!.
  - unfold project_onto_segment.
    destruct (math_cos _) as [c|e]; simpl; [|done].
    destruct (_ =? 0)%float.
    + split_and!; [done | done |]. by right.
    + pose proof (clamp_unit_interval
        (((wlon * c - alon * c) * (blon * c - alon * c) + (wlat - alat) * (blat - alat)) /
         ((blon * c - alon * c) * (blon * c - alon * c) + (blat - alat) * (blat - alat)))%float)
        as [H0 H1].
      split_and!; [done | done |]. by left.
  - intros HL Hmean. unfold project_onto_segment.
    destruct (math_cos_finite _ (math_radians_finite _ Hmean)) as [-> _]. simpl.
    destruct (_ =? 0)%float; by do 3 eexists.
  - intros c Hc Hlat Hlon. unfold project_onto_segment. rewrite Hc. simpl.
    rewrite !sub_diag by done.
    by change (0 * 0 + 0 * 0 =? 0)%float with true.
Qed.

Lemma project_onto_segment_spec_witness :
  (exists plat plon t,
     @project_onto_segment small_angle 1e-7 0.8e-6 0 0 0 1.6e-6 = Ok (plat, plon, t)) /\
  @project_onto_segment small_angle 1e-7 0.8e-6 0 1.6e-6 0 1.6e-6
    = Ok (0%float, 1.6e-6%float, 0%float).
Proof.
  split.
  - apply (@project_onto_segment_spec small_angle 1e-7 0.8e-6 0 0 0 1.6e-6);
      [apply small_angle_laws | reflexivity].
  - apply (@project_onto_segment_spec small_angle 1e-7 0.8e-6 0 1.6e-6 0 1.6e-6)
      with (cos_lat := 1%float); vm_compute; reflexivity.
Defined.

(** ** The distance: sign, symmetry, zero *)

(** C7.  For points with finite coordinates and a libm that obeys
    [LibmLaws]: the distance, when it evaluates, is at least 0; the distance
    from A to B is the distance from B to A, exceptions included; and the
    distance between points whose coordinates are equal is 0.  (The converse
    of the last part does not hold.) *)
Theorem haversine_metric {L : Libm} {HL : LibmLaws L} (lat1 lon1 lat2 lon2 : float) :
  is_finite lat1 = true -> is_finite lon1 = true ->
  is_finite lat2 = true -> is_finite lon2 = true ->
  (forall d, haversine lat1 lon1 lat2 lon2 = Ok d -> (0 <=? d)%float = true) /\
  haversine lat1 lon1 lat2 lon2 = haversine lat2 lon2 lat1 lon1 /\
  ((lat1 =? lat2)%float = true -> (lon1 =? lon2)%float = true ->
   haversine lat1 lon1 lat2 lon2 = Ok 0%float).
Proof.
  intros F1 F2 F3 F4. split_and!.
  - intros d. by apply haversine_nonneg.
  - apply haversine_sym.
  - by apply haversine_equal.
Qed.

Lemma haversine_metric_witness :
  (0 <=? 0.011119492664455874)%float = true /\
  @haversine small_angle 1e-7 0 0 0 = @haversine small_angle 0 0 1e-7 0 /\
  @haversine small_angle 1e-7 0 1e-7 0 = Ok 0%float.
Proof.
  destruct (@haversine_metric small_angle small_angle_laws 1e-7 0 0 0)
    as (Hpos & Hsym & _); [reflexivity..|].
  destruct (@haversine_metric small_angle small_angle_laws 1e-7 0 1e-7 0)
    as (_ & _ & Hzero); [reflexivity..|].
  split_and!; [apply Hpos; vm_compute; reflexivity | exact Hsym
              | apply Hzero; reflexivity].
Defined.

(** C7, the converse that fails: two points a hundred and seventy orders of
    magnitude below a degree apart are at distance 0, the square of the sine
    underflowing to 0; their latitudes differ. *)
Lemma haversine_zero_unequal :
  @haversine small_angle 0 0 1e-170 0 = Ok 0%float /\
  (0 =? 1e-170)%float = false /\
  ~ ((@haversine small_angle 0 0 1e-170 0 = Ok 0%float) <->
     ((0 =? 1e-170)%float = true /\ (0 =? 0)%float = true)).
Proof.
  split_and!; [vm_compute; reflexivity | vm_compute; reflexivity |].
  intros [H _]. destruct H as [H _]; [vm_compute; reflexivity|].
  vm_compute in H. discriminate H.
Qed.

(** ** The square root *)

Lemma Zdigits2_le_pow2 (q k : Z) :
  (0 <= q)%Z -> (0 <= k)%Z -> (q < 2 ^ k)%Z -> (Zdigits2 q <= k)%Z.
Proof.
  intros Hq Hk Hlt. destruct q as [|p|p]; [simpl; lia | | lia].
  simpl. rewrite digits2_pos_log2.
  apply Z.log2_lt_pow2 in Hlt; lia.
Qed.

Lemma Zpos_lt_pow2_digits (m : positive) : (Zpos m < 2 ^ Zpos (digits2_pos m))%Z.
Proof.
  rewrite digits2_pos_log2.
  pose proof (Z.log2_spec (Zpos m) ltac:(lia)) as [_ H].
  by rewrite <- Z.add_1_r in H.
Qed.

Lemma SFsqrt_core_bounds m e :
  (Zpos (digits2_pos m) + e <= 1024)%Z -> (e <= 971)%Z ->
  let '(q, e', _) := SFsqrt_core_binary prec emax (Zpos m) e in
  (0 <= q)%Z /\ (e' <= 971)%Z /\ (Zdigits2 q + e' <= 1023)%Z.
Proof.
  intros Hd He. unfold SFsqrt_core_binary.
  set (d := Zdigits2 (Zpos m)).
  set (e' := Z.min _ _).
  set (s := (e - 2 * e')%Z).
  assert (Hd' : d = Zpos (digits2_pos m)) by done.
  assert (He' : (2 * e' <= e)%Z).
  { unfold e'. pose proof (Z.div2_odd e) as H. destruct (Z.odd e); simpl in H; lia. }
  assert (Hs : (0 <= s)%Z) by (unfold s; lia).
  set (m' := match s with Zpos _ => Z.shiftl (Zpos m) s | Z0 => Zpos m | Zneg _ => 0%Z end).
  assert (Hm' : m' = (Zpos m * 2 ^ s)%Z).
  { unfold m'. destruct s as [|p|p] eqn:Es; [lia | | lia].
    by rewrite Z.shiftl_mul_pow2. }
  assert (Hm'0 : (0 <= m')%Z) by (rewrite Hm'; apply Z.mul_nonneg_nonneg; [lia | by apply Z.pow_nonneg]).
  pose proof (Z.sqrtrem_spec m' Hm'0) as Hq.
  destruct (Z.sqrtrem m') as [q r]. destruct Hq as [Hq Hr].
  assert (Hq0 : (0 <= q)%Z) by lia.
  split_and!; [done | lia |].
  (* q < 2^k with 2k >= d + s *)
  set (k := ((d + s + 1) / 2)%Z).
  assert (Hk : (d + s <= 2 * k)%Z /\ (2 * k <= d + s + 1)%Z).
  { unfold k. pose proof (Z.div_mod (d + s + 1) 2 ltac:(lia)).
    pose proof (Z.mod_pos_bound (d + s + 1) 2 ltac:(lia)). lia. }
  assert (Hdpos : (0 < d)%Z) by (rewrite Hd'; lia).
  assert (Hk0 : (0 <= k)%Z) by lia.
  assert (Hlt : (q < 2 ^ k)%Z).
  { destruct (Z.lt_ge_cases q (2 ^ k)) as [|Hge]; [done|]. exfalso.
    assert (H1 : (2 ^ k * 2 ^ k <= q * q)%Z) by (apply Z.mul_le_mono_nonneg; lia).
    rewrite <- Z.pow_add_r in H1 by lia.
    assert (H2 : (m' < 2 ^ (d + s))%Z).
    { rewrite Hm', Z.pow_add_r by lia.
      apply Z.mul_lt_mono_pos_r; [by apply Z.pow_pos_nonneg|].
      rewrite Hd'. apply Zpos_lt_pow2_digits. }
    assert (H3 : (2 ^ (d + s) <= 2 ^ (k + k))%Z) by (apply Z.pow_le_mono_r; lia).
    lia. }
  pose proof (Zdigits2_le_pow2 q k Hq0 Hk0 Hlt). unfold s in Hk. lia.
Qed.

Lemma sqrt_finite (x : float) :
  is_finite x = true -> (x <? 0)%float = false -> is_finite (sqrt x) = true.
Proof.
  rewrite !is_finite_spec, ltb_spec, sqrt_spec.
  change (Prim2SF 0) with (S754_zero false).
  pose proof (Prim2SF_valid x) as Hv.
  destruct (Prim2SF x) as [s|[]| |[] m e]; try done; intros _ _.
  apply bounded_inv in Hv as [Hd He].
  unfold SF64sqrt, SFsqrt.
  pose proof (SFsqrt_core_bounds m e ltac:(lia) He) as H.
  destruct (SFsqrt_core_binary _ _ _ _) as [[q e'] l].
  destruct H as (Hq & He' & Hqe). by apply bra_finite.
Qed.

(** [math.sqrt] raises exactly on negative arguments. *)
Lemma math_sqrt_negative (x : float) :
  (x <? 0)%float = true -> math_sqrt x = Raise ValueError.
Proof.
  intros Hx. unfold math_sqrt, math_1.
  by rewrite (sqrt_negative _ Hx), (ltb_not_nan_l _ _ Hx).
Qed.

Lemma math_sqrt_Ok (x : float) :
  is_nan x = false -> (x <? 0)%float = false -> math_sqrt x = Ok (sqrt x).
Proof.
  intros Hn Hx. destruct (is_finite x) eqn:Hf.
  - apply math_1_finite. by apply sqrt_finite.
  - unfold math_sqrt, math_1. rewrite Hf, andb_false_r.
    replace (is_nan (sqrt x)) with false; [done|].
    revert Hn Hx Hf. rewrite !is_nan_spec, is_finite_spec, ltb_spec, sqrt_spec.
    change (Prim2SF 0) with (S754_zero false).
    by destruct (Prim2SF x) as [s|[]| |[] m e].
Qed.

(** C6, as the code has it.  Nothing clamps the term [a] under the square
    root.  For finite coordinates and a libm that obeys [LibmLaws]: when the
    computed [a] is negative the distance raises ValueError; when it is not,
    [math.sqrt] does not raise and its result goes to [math.asin] as it is.
    The distance from a point to itself evaluates, to 0. *)
Theorem haversine_unclamped {L : Libm} {HL : LibmLaws L}
    (lat1 lon1 lat2 lon2 a : float) :
  is_finite lat1 = true -> is_finite lon1 = true ->
  is_finite lat2 = true -> is_finite lon2 = true ->
  haversine_term lat1 lon1 lat2 lon2 = Ok a ->
  (if (a <? 0)%float
   then haversine lat1 lon1 lat2 lon2 = Raise ValueError
   else math_sqrt a = Ok (sqrt a) /\
        haversine lat1 lon1 lat2 lon2
        = s ← math_asin (sqrt a); Ok (2 * EARTH_RADIUS * s)%float) /\
  haversine lat1 lon1 lat1 lon1 = Ok 0%float.
Proof.
  intros F1 F2 F3 F4 Ha. split.
  - pose proof (haversine_term_not_nan _ _ _ _ _ F1 F2 F3 F4 Ha) as Hn.
    unfold haversine. rewrite Ha. simpl.
    destruct (a <? 0)%float eqn:Hneg.
    + by rewrite math_sqrt_negative.
    + by rewrite math_sqrt_Ok.
  - apply haversine_equal; try done; rewrite FloatAxioms.eqb_spec;
      unfold SFeqb; rewrite SFcompare_refl; try done;
      intros E; [rewrite is_finite_spec, E in F1 | rewrite is_finite_spec, E in F2]; done.
Qed.

Lemma haversine_unclamped_witness :
  @haversine small_angle 1e-7 0 0 0 = Ok 0.011119492664455874%float /\
  @haversine small_angle 1e-7 0 1e-7 0 = Ok 0%float.
Proof.
  edestruct (@haversine_unclamped small_angle small_angle_laws 1e-7 0 0 0)
    as [H1 H2]; [reflexivity | reflexivity | reflexivity | reflexivity
                | vm_compute; reflexivity |].
  split; [|exact H2].
  simpl in H1. destruct H1 as [_ ->]. vm_compute. reflexivity.
Defined.

(** C6, as stated, fails: for the points (135, 0) and (45, 180), the same
    place on the sphere, the term under the square root comes out as
    [-2^-53] and [math.sqrt] raises ValueError. *)
Lemma haversine_raises_unclamped :
  @haversine_term quadrants 135 0 45 180 = Ok (-0x1p-53)%float /\
  @haversine quadrants 135 0 45 180 = Raise ValueError.
Proof. split; vm_compute; reflexivity. Qed.

(** * The scans, whole runs and the command line *)

(** ** Floats: the order *)

Ltac order_cases :=
  repeat match goal with
  | |- context [Z.compare ?a ?b] => destruct (Z.compare_spec a b)
  | |- context [Pos.compare ?a ?b] => destruct (Pos.compare_spec a b)
  end.

Lemma SFltb_trans x y z : SFltb x y = true -> SFltb y z = true -> SFltb x z = true.
Proof.
  unfold SFltb, SFcompare.
  destruct x as [[]|[]| |[] mx ex], y as [[]|[]| |[] my ey]; try done;
  destruct z as [[]|[]| |[] mz ez]; try done;
  change (Pos.compare_cont Eq) with Pos.compare;
  order_cases; simpl; try done; lia.
Qed.

Lemma SFleb_ltb_trans x y z : SFleb x y = true -> SFltb y z = true -> SFltb x z = true.
Proof.
  unfold SFleb, SFltb, SFcompare.
  destruct x as [[]|[]| |[] mx ex], y as [[]|[]| |[] my ey]; try done;
  destruct z as [[]|[]| |[] mz ez]; try done;
  change (Pos.compare_cont Eq) with Pos.compare;
  order_cases; simpl; try done; lia.
Qed.

Lemma ltb_trans (x y z : float) :
  (x <? y)%float = true -> (y <? z)%float = true -> (x <? z)%float = true.
Proof. rewrite !ltb_spec. apply SFltb_trans. Qed.

Lemma leb_ltb_trans (x y z : float) :
  (x <=? y)%float = true -> (y <? z)%float = true -> (x <? z)%float = true.
Proof. rewrite leb_spec, !ltb_spec. apply SFleb_ltb_trans. Qed.

Lemma ltb_irrefl (x : float) : (x <? x)%float = false.
Proof.
  rewrite ltb_spec. unfold SFltb.
  destruct (Prim2SF x) as [s|s| |s m e] eqn:E; try done.
  - by destruct s.
  - rewrite SFcompare_refl; done.
Qed.

Lemma eqb_refl_finite (x : float) : is_finite x = true -> (x =? x)%float = true.
Proof.
  rewrite is_finite_spec, FloatAxioms.eqb_spec. unfold SFeqb. intros H.
  rewrite SFcompare_refl; [done|]. by destruct (Prim2SF x).
Qed.

(** A distance that is not above zero is not above any distance. *)
Lemma zero_leb_nonneg (x y : float) :
  (0 <=? x)%float = true -> (0 <? x)%float = false -> (0 <=? y)%float = true ->
  (x <=? y)%float = true.
Proof.
  rewrite !leb_spec, ltb_spec. change (Prim2SF 0) with (S754_zero false).
  unfold SFleb, SFltb.
  destruct (Prim2SF x) as [sx|[]| |[] mx ex], (Prim2SF y) as [sy|[]| |[] my ey]; done.
Qed.

(** ** The nearest vertex *)

Section Nearest.
Context {L : Libm}.

(** One more point keeps [nearest_of]: a new best is below the old one, so
    below or equal to nothing seen before. *)
Lemma scan_vertices_nearest wpt pts : forall pre best out,
  scan_vertices wpt (length pre) pts best = Ok out ->
  nearest_of wpt pre best -> nearest_of wpt (pre ++ pts) out.
Proof.
  induction pts as [|pt rest IH]; intros pre best out H Hinv; simpl in H.
  - injection H as <-. by rewrite app_nil_r.
  - inv_bind H. rename a into d.
    replace (pre ++ pt :: rest) with ((pre ++ [pt]) ++ rest)
      by (by rewrite <- app_assoc).
    eapply (IH (pre ++ [pt])); [by rewrite length_app, Nat.add_1_r|].
    clear IH H. destruct Hinv as [Hmin Hat].
    assert (Hidx : (best.2 <= length pre)%nat).
    { destruct Hat as [->|(p & Hp & _)]; [simpl; lia|].
      apply lookup_lt_Some in Hp. lia. }
    destruct (d <? best.1)%float eqn:Hd; simpl; split.
    + intros j p Hp. apply lookup_app_Some in Hp as [Hp|[Hj Hp]].
      * destruct (Hmin j p Hp) as (dj & Hdj & Hlt & _). exists dj. split_and!; [done | |].
        -- destruct (dj <? d)%float eqn:E'; [|done].
           by rewrite (ltb_trans _ _ _ E' Hd) in Hlt.
        -- intros _. destruct (dj <=? d)%float eqn:E'; [|done].
           by rewrite (leb_ltb_trans _ _ _ E' Hd) in Hlt.
      * apply list_lookup_singleton_Some in Hp as [Hj' <-].
        exists d. split_and!; [done | apply ltb_irrefl | simpl; lia].
    + right. exists pt. split; [|done]. by rewrite lookup_app_r, Nat.sub_diag.
    + intros j p Hp. apply lookup_app_Some in Hp as [Hp|[Hj Hp]].
      * by apply Hmin.
      * apply list_lookup_singleton_Some in Hp as [Hj' <-].
        exists d. split_and!; [done | done | lia].
    + destruct Hat as [->|(p & Hp & Hdp)]; [by left|].
      right. exists p. split; [|done]. by apply lookup_app_l_Some.
Qed.

Lemma find_closest_vertex_scan wpt points d i :
  find_closest_vertex wpt points = Ok (d, i) -> nearest_of wpt points (d, i).
Proof.
  intros H. apply (scan_vertices_nearest wpt points [] (infinity, 0%nat) (d, i) H).
  split; [|by left]. intros j p Hp. done.
Qed.
End Nearest.

(** What [find_closest_vertex] returns is the nearest vertex, the first one
    among equals: every vertex's distance evaluates and none is below the
    returned distance [d], and no vertex before the returned index [i] is as
    near as [d].  [d] is the distance of the vertex at [i], unless no vertex
    was below infinity, and then the result is [(inf, 0)]. *)
Theorem find_closest_vertex_nearest {L : Libm} (wpt : GPXWaypoint)
    (points : list GPXTrackPoint) (d : float) (i : nat) :
  find_closest_vertex wpt points = Ok (d, i) ->
  (forall j p, points !! j = Some p ->
     exists dj, vertex_dist wpt p = Ok dj /\
       (dj <? d)%float = false /\
       (j < i -> (dj <=? d)%float = false)%nat) /\
  ((d, i) = (infinity, 0%nat) \/
   exists p, points !! i = Some p /\ vertex_dist wpt p = Ok d).
Proof.
  intros H. apply (scan_vertices_nearest wpt points [] (infinity, 0%nat) (d, i) H).
  split; [|by left]. intros j p Hp. done.
Qed.

Lemma find_closest_vertex_nearest_witness :
  (forall j p, sample_points !! j = Some p ->
     exists dj, @vertex_dist small_angle wpt_middle p = Ok dj /\
       (dj <? 0.089648215891158248)%float = false /\
       (j < 0 -> (dj <=? 0.089648215891158248)%float = false)%nat) /\
  ((0.089648215891158248%float, 0%nat) = (infinity, 0%nat) \/
   exists p, sample_points !! 0%nat = Some p /\
     @vertex_dist small_angle wpt_middle p = Ok 0.089648215891158248%float).
Proof.
  apply (@find_closest_vertex_nearest small_angle wpt_middle sample_points).
  vm_compute. reflexivity.
Defined.

(** ** The nearest edge *)

Section NearestEdge.
Context {L : Libm}.

Lemma scan_edges_nearest wpt points pts : forall i best out,
  drop i points = pts ->
  scan_edges wpt i pts best = Ok out ->
  (best_seg_idx best <= i)%nat ->
  nearest_edge wpt points i (best_dist best) (best_seg_idx best) ->
  nearest_edge wpt points (length points) (best_dist out) (best_seg_idx out).
Proof.
  induction pts as [|a rest IH]; intros i best out Hdrop H Hidx Hinv; simpl in H.
  - injection H as <-. intros k pa pb _ Ha Hb. apply Hinv; [|done..].
    apply (f_equal length) in Hdrop. rewrite length_drop in Hdrop. simpl in Hdrop.
    apply lookup_lt_Some in Hb. lia.
  - destruct rest as [|b rest'].
    + injection H as <-. intros k pa pb _ Ha Hb. apply Hinv; [|done..].
      apply (f_equal length) in Hdrop. rewrite length_drop in Hdrop. simpl in Hdrop.
      apply lookup_lt_Some in Hb. lia.
    + inv_bind H. destruct a0 as [[plat plon] t]. inv_bind H. rename a0 into d.
      assert (Ha : points !! i = Some a).
      { rewrite <- (Nat.add_0_r i), <- lookup_drop, Hdrop. done. }
      assert (Hb : points !! S i = Some b).
      { rewrite <- (Nat.add_1_r i), <- lookup_drop, Hdrop. done. }
      assert (Hdrop' : drop (S i) points = b :: rest').
      { erewrite drop_S in Hdrop by done. congruence. }
      assert (Hedge : edge_dist wpt a b = Ok d).
      { unfold edge_dist. rewrite E. simpl. done. }
      apply (IH _ _ _ Hdrop') in H; [done | |]; clear IH H.
      * destruct (_ <? _)%float; simpl; lia.
      * intros k pa pb Hk Hpa Hpb.
        destruct (decide (k = i)) as [->|Hne].
        -- replace pa with a by congruence. replace pb with b by congruence.
           exists d. split; [done|].
           destruct (d <? best_dist best)%float eqn:Hd; simpl.
           ++ split; [apply ltb_irrefl | lia].
           ++ split; [done | lia].
        -- destruct (Hinv k pa pb ltac:(lia) Hpa Hpb) as (dk & Hdk & Hlt & Hfirst).
           exists dk. split; [done|].
           destruct (d <? best_dist best)%float eqn:Hd; simpl; [|done].
           split.
           ++ destruct (dk <? d)%float eqn:E'; [|done].
              by rewrite (ltb_trans _ _ _ E' Hd) in Hlt.
           ++ intros _. destruct (dk <=? d)%float eqn:E'; [|done].
              by rewrite (leb_ltb_trans _ _ _ E' Hd) in Hlt.
Qed.
End NearestEdge.

(** What [find_closest_on_segment] returns is the nearest edge, the first
    one among equals: every edge's distance (to the projection of the waypoint
    on it) evaluates and none is below the returned [min_dist], and no edge
    before the returned [seg_idx] is as near.  On a segment of two points or
    more the result is the initial one (no edge was below infinity) or the
    projection on the edge [seg_idx] with its parameter and its distance. *)
Theorem find_closest_on_segment_nearest {L : Libm} (wpt : GPXWaypoint)
    (points : list GPXTrackPoint) (c : Closest) :
  find_closest_on_segment wpt points = Ok c ->
  (forall k a b, points !! k = Some a -> points !! S k = Some b ->
     exists dk, edge_dist wpt a b = Ok dk /\
       (dk <? min_dist c)%float = false /\
       (k < seg_idx c -> (dk <=? min_dist c)%float = false)%nat) /\
  ((2 <= length points)%nat ->
   c = closest_of best_init (Some 0%nat) \/
   exists a b,
     points !! seg_idx c = Some a /\ points !! S (seg_idx c) = Some b /\
     project_onto_segment (wpt_latitude wpt) (wpt_longitude wpt)
       (latitude a) (longitude a) (latitude b) (longitude b)
       = Ok (projected_lat c, projected_lon c, t_param c) /\
     haversine (wpt_latitude wpt) (wpt_longitude wpt) (projected_lat c) (projected_lon c)
       = Ok (min_dist c)).
Proof.
  intros H. split.
  - intros k a b Ha Hb.
    destruct points as [|p0 [|p1 rest]]; [done | by destruct k |].
    unfold find_closest_on_segment in H. inv_bind H. rename a0 into best.
    inv_bind H. injection H as <-. simpl.
    apply (scan_edges_nearest wpt (p0 :: p1 :: rest) _ 0 best_init best eq_refl E);
      [simpl; lia | | | done | done].
    + intros k' ? ? Hk'. lia.
    + apply lookup_lt_Some in Hb. simpl in *. lia.
  - intros Hlen.
    destruct (find_closest_on_segment_spec wpt points c) as [_ Hc];
      [destruct points; [simpl in Hlen; lia | done] | done |].
    destruct Hc as [(p & d & -> & _)|[->|(best & (a & b & He) & Hc)]].
    + simpl in Hlen. lia.
    + by left.
    + right. exists a, b. rewrite Hc. simpl. done.
Qed.

Lemma find_closest_on_segment_nearest_witness :
  (forall k a b, sample_points !! k = Some a -> sample_points !! S k = Some b ->
     exists dk, @edge_dist small_angle wpt_middle a b = Ok dk /\
       (dk <? 0.011119492664455874)%float = false) /\
  exists a b,
    sample_points !! 0%nat = Some a /\ sample_points !! 1%nat = Some b /\
    @project_onto_segment small_angle 1e-7 0.8e-6
      (latitude a) (longitude a) (latitude b) (longitude b)
      = Ok (0%float, 0.8e-6%float, 0.5%float) /\
    @haversine small_angle 1e-7 0.8e-6 0 0.8e-6 = Ok 0.011119492664455874%float.
Proof.
  destruct (@find_closest_on_segment_nearest small_angle wpt_middle sample_points
    {| min_dist := 0.011119492664455874; seg_idx := 0; projected_lat := 0;
       projected_lon := 0.8e-6; t_param := 0.5; vertex_idx := None |})
    as [Hmin Hat]; [vm_compute; reflexivity|].
  split.
  - intros k a b Ha Hb. destruct (Hmin k a b Ha Hb) as (dk & Hdk & Hlt & _).
    by exists dk.
  - destruct Hat as [Hinit|Hedge]; [simpl; lia | discriminate Hinit | exact Hedge].
Defined.

(** ** Add mode never indexes out of range *)

Section IndexSafety.
Context {L : Libm}.

Lemma project_onto_segment_Raise wlat wlon alat alon blat blon e :
  project_onto_segment wlat wlon alat alon blat blon = Raise e -> e = ValueError.
Proof.
  unfold project_onto_segment, math_cos. intros H.
  apply bind_Raise in H as [H|(c & _ & H)]; [by eapply math_1_Raise|].
  simpl in H. by destruct (_ =? 0)%float.
Qed.

Lemma scan_edges_Raise wpt pts : forall i best e,
  scan_edges wpt i pts best = Raise e -> e <> IndexError.
Proof.
  induction pts as [|a rest IH]; intros i best e H; simpl in H; [done|].
  destruct rest as [|b rest']; [done|].
  apply bind_Raise in H as [H|([[plat plon] t] & _ & H)].
  - apply project_onto_segment_Raise in H. congruence.
  - apply bind_Raise in H as [H|(d & _ & H)].
    + by eapply haversine_Raise.
    + by eapply IH.
Qed.

(** The indexing of lines 97-100 is reached only with an edge that won. *)
Lemma classify_vertex_Raise wpt points best e :
  best = best_init \/ edge_result wpt points best ->
  classify_vertex points best = Raise e -> e <> IndexError.
Proof.
  intros Hbest H. unfold classify_vertex in H.
  destruct Hbest as [->|(a & b & Ha & Hb & _)]; [done|].
  destruct (best_t best <? _)%float; [done|].
  destruct (_ <? best_t best)%float; [done|].
  apply py_index_Ok in Ha. rewrite Ha in H. simpl in H.
  apply bind_Raise in H as [H|(d_a & _ & H)]; [by eapply haversine_Raise|].
  rewrite Nat.add_1_r in H. apply py_index_Ok in Hb. rewrite Hb in H. simpl in H.
  apply bind_Raise in H as [H|(d_b & _ & H)]; [by eapply haversine_Raise|].
  by repeat case_match.
Qed.

Lemma find_closest_on_segment_Raise wpt points e :
  find_closest_on_segment wpt points = Raise e -> e <> IndexError.
Proof.
  intros H. destruct points as [|p0 rest]; [done|].
  unfold find_closest_on_segment in H.
  apply bind_Raise in H as [H|(best & Hscan & H)]; [by eapply scan_edges_Raise|].
  assert (Hclass : forall e',
    (classify_vertex (p0 :: rest) best ≫= fun v => Ok (closest_of best v)) = Raise e' ->
    e' <> IndexError).
  { intros e' Hc. apply bind_Raise in Hc as [Hc|(v & _ & Hc)]; [|done].
    eapply classify_vertex_Raise; [|exact Hc].
    destruct (scan_edges_spec wpt (p0 :: rest) _ 0 _ _ eq_refl Hscan); [left | right]; done. }
  destruct rest as [|p1 rest']; [|by apply Hclass].
  apply bind_Raise in H as [H|(d & _ & H)]; [by eapply haversine_Raise|].
  destruct (_ <? _)%float; [done | by apply Hclass].
Qed.

Lemma add_insertion_Raise maxdist points wpt e :
  add_insertion maxdist points wpt = Raise e -> e <> IndexError.
Proof.
  intros H. unfold add_insertion in H.
  apply bind_Raise in H as [H|(c & Hc & H)]; [by eapply find_closest_on_segment_Raise|].
  destruct (maxdist <? min_dist c)%float; [done|].
  destruct (vertex_idx c) as [v|] eqn:Hv; [|done].
  assert (Hne : points <> []).
  { intros ->. injection Hc as <-. discriminate Hv. }
  destruct (find_closest_on_segment_indices _ _ _ Hne Hc) as [_ Hlt].
  destruct (lookup_lt_is_Some_2 points v (Hlt v Hv)) as [V HV].
  apply py_index_Ok in HV. by rewrite HV in H.
Qed.

Lemma collect_insertions_Raise maxdist points wpts e :
  collect_insertions maxdist points wpts = Raise e -> e <> IndexError.
Proof.
  induction wpts as [|wpt rest IH]; simpl; [done|]. intros H.
  apply bind_Raise in H as [H|(o & _ & H)]; [by eapply add_insertion_Raise|].
  apply bind_Raise in H as [H|(ins & _ & H)]; [by apply IH | done].
Qed.
End IndexSafety.

(** In add mode no index is out of range, whatever the document and
    [maxdist] are: [find_closest_on_segment] reaches [points[best_seg_idx]]
    and [points[best_seg_idx + 1]] only for an edge that won, and
    [process_add] reads [segment.points[vertex_idx]] only for a vertex that
    exists.  Neither ever raises IndexError. *)
Theorem add_mode_index_safe {L : Libm} :
  (forall wpt points, find_closest_on_segment wpt points <> Raise IndexError) /\
  (forall gpx_data maxdist, process_add gpx_data maxdist <> Raise IndexError).
Proof.
  split.
  - intros wpt points H. by eapply find_closest_on_segment_Raise.
  - intros gpx maxdist H. unfold process_add in H.
    destruct (waypoints gpx) as [|w ws]; [done|].
    apply for_each_segment_Raise in H as (pts & H).
    unfold process_add_segment in H.
    apply bind_Raise in H as [H|(ins & _ & H)]; [|done].
    by eapply collect_insertions_Raise.
Qed.

(** ** How much add mode adds *)

Section Growth.
Context {L : Libm}.

Lemma add_insertion_block_length maxdist points wpt x :
  add_insertion maxdist points wpt = Ok (Some x) ->
  (2 <= length x.2 <= 3)%nat.
Proof.
  intros H. unfold add_insertion in H. inv_bind H.
  destruct (maxdist <? _)%float; [done|].
  destruct (vertex_idx a).
  - inv_bind H. injection H as <-. simpl. lia.
  - injection H as <-. simpl. lia.
Qed.

Lemma collect_insertions_length maxdist points wpts : forall ins,
  collect_insertions maxdist points wpts = Ok ins ->
  (length ins <= length wpts)%nat /\
  (2 * length ins <= length (concat ins.*2) <= 3 * length ins)%nat.
Proof.
  induction wpts as [|wpt rest IH]; intros ins H; simpl in H.
  - injection H as <-. simpl. lia.
  - inv_bind H. inv_bind H. injection H as <-.
    destruct (IH _ E0) as [Hn Hb]. destruct a as [x|].
    + apply add_insertion_block_length in E.
      rewrite fmap_cons, concat_cons, length_app. simpl length. lia.
    + simpl length. lia.
Qed.
End Growth.

(** An add-mode pass over a segment adds two or three points for every
    insertion, and there is at most one insertion per waypoint: with [n]
    insertions the segment grows by at least [2 n] and at most [3 n]
    points. *)
Theorem add_mode_growth {L : Libm} (maxdist : float) (wpts : list GPXWaypoint)
    (points out : list GPXTrackPoint) :
  process_add_segment maxdist wpts points = Ok out ->
  exists ins,
    collect_insertions maxdist points wpts = Ok ins /\
    (length ins <= length wpts)%nat /\
    (length points + 2 * length ins <= length out
       <= length points + 3 * length ins)%nat.
Proof.
  intros H. unfold process_add_segment in H. inv_bind H. injection H as <-.
  rename a into ins. exists ins.
  destruct (collect_insertions_length _ _ _ _ E) as [Hn Hb].
  assert (Hlen : length (apply_insertions (sort_desc ins) points)
                 = (length points + length (concat ins.*2))%nat).
  { by rewrite apply_insertions_perm, sort_desc_perm, length_app. }
  split_and!; [done | done | lia | lia].
Qed.

Lemma add_mode_growth_witness :
  exists ins out,
    @process_add_segment small_angle 100 [wpt_middle; wpt_start; wpt_far] sample_points
      = Ok out /\
    @collect_insertions small_angle 100 sample_points [wpt_middle; wpt_start; wpt_far]
      = Ok ins /\
    (length ins <= 3)%nat /\
    (2 + 2 * length ins <= length out <= 2 + 3 * length ins)%nat.
Proof.
  edestruct (@add_mode_growth small_angle 100 [wpt_middle; wpt_start; wpt_far]
               sample_points) as (ins & Hins & Hn & Hlen); [vm_compute; reflexivity|].
  exists ins. eexists. split; [vm_compute; reflexivity|].
  split_and!; [exact Hins | exact Hn | exact (proj1 Hlen) | exact (proj2 Hlen)].
Defined.

(** ** Where the points of an add-mode pass come from *)

Section Origin.
Context {L : Libm}.

Lemma add_insertion_points maxdist points wpt x :
  add_insertion maxdist points wpt = Ok (Some x) ->
  forall p, p ∈ x.2 -> inserted_for points wpt p.
Proof.
  intros H p Hp. unfold add_insertion in H. inv_bind H. rename a into c.
  destruct (maxdist <? _)%float; [done|].
  destruct (vertex_idx c) as [v|].
  - inv_bind H. injection H as <-. simpl in Hp. apply py_index_Ok in E0.
    apply elem_of_cons in Hp as [->|Hp]; [right; by left|].
    apply list_elem_of_singleton in Hp as ->. left.
    rewrite duplicate_point_eq. by eapply list_elem_of_lookup_2.
  - injection H as <-. simpl in Hp.
    repeat (apply elem_of_cons in Hp as [->|Hp]);
      [right; right; by exists c | right; by left | right; right; by exists c
      | by apply elem_of_nil in Hp].
Qed.

Lemma collect_insertions_from maxdist points wpts : forall ins x,
  collect_insertions maxdist points wpts = Ok ins ->
  x ∈ ins ->
  exists wpt, wpt ∈ wpts /\ add_insertion maxdist points wpt = Ok (Some x).
Proof.
  induction wpts as [|w rest IH]; intros ins x H Hx; simpl in H.
  - injection H as <-. by apply elem_of_nil in Hx.
  - inv_bind H. inv_bind H. injection H as <-.
    destruct a as [y|].
    + apply elem_of_cons in Hx as [->|Hx].
      * exists w. split; [left | done].
      * destruct (IH _ _ E0 Hx) as (w' & Hw' & Hadd). exists w'. split; [by right | done].
    + destruct (IH _ _ E0 Hx) as (w' & Hw' & Hadd). exists w'. split; [by right | done].
Qed.
End Origin.

Lemma elem_of_concat {A} (x : A) (ls : list (list A)) :
  x ∈ concat ls -> exists l, x ∈ l /\ l ∈ ls.
Proof.
  induction ls as [|l ls IH]; simpl; [by intros ?%elem_of_nil|].
  intros [H|H]%elem_of_app.
  - exists l. split; [done | left].
  - destruct (IH H) as (l' & Hx & Hl'). exists l'. split; [done | by right].
Qed.

(** Every point of a segment after an add-mode pass is one of its original
    points (or the copy of one, equal to it), the bare point made for a
    waypoint's coordinates, or the bare point made for the projection
    [find_closest_on_segment] returned for a waypoint.  As everywhere, the
    bare point made for [(lat, lon)] holds [lat or 0] and [lon or 0]. *)
Theorem add_mode_points_origin {L : Libm} (maxdist : float)
    (wpts : list GPXWaypoint) (points out : list GPXTrackPoint) :
  process_add_segment maxdist wpts points = Ok out ->
  forall p, p ∈ out ->
    p ∈ points \/
    exists w, w ∈ wpts /\
      (p = make_bare_point (wpt_latitude w) (wpt_longitude w) \/
       exists c, find_closest_on_segment w points = Ok c /\
         p = make_bare_point (projected_lat c) (projected_lon c)).
Proof.
  intros H p Hp. unfold process_add_segment in H. inv_bind H. injection H as <-.
  rename a into ins.
  rewrite apply_insertions_perm, sort_desc_perm, elem_of_app in Hp.
  destruct Hp as [Hp|Hp]; [by left|].
  apply elem_of_concat in Hp as (block & Hp & Hblock).
  apply list_elem_of_fmap in Hblock as (x & -> & Hx).
  destruct (collect_insertions_from _ _ _ _ _ E Hx) as (w & Hw & Hadd).
  destruct (add_insertion_points _ _ _ _ Hadd p Hp) as [Hin|[->|Hproj]];
    [by left | right | right]; exists w; (split; [done|]); [by left | by right].
Qed.

Lemma add_mode_points_origin_witness :
  (make_bare_point 0 0.8e-6 ∈ sample_points \/
   exists w, w ∈ [wpt_middle] /\
     (make_bare_point 0 0.8e-6
        = make_bare_point (wpt_latitude w) (wpt_longitude w) \/
      exists c, @find_closest_on_segment small_angle w sample_points = Ok c /\
        make_bare_point 0 0.8e-6
          = make_bare_point (projected_lat c) (projected_lon c))) /\
  ({| latitude := 0; longitude := 0; elevation := None; time := None;
      other := [] |} ∈ sample_points \/
   exists w, w ∈ [wpt_negative_zero] /\
     ({| latitude := 0; longitude := 0; elevation := None; time := None;
         other := [] |}
        = make_bare_point (wpt_latitude w) (wpt_longitude w) \/
      exists c, @find_closest_on_segment small_angle w sample_points = Ok c /\
        {| latitude := 0; longitude := 0; elevation := None; time := None;
           other := [] |}
          = make_bare_point (projected_lat c) (projected_lon c))).
Proof.
  split.
  - eapply (@add_mode_points_origin small_angle 100 [wpt_middle] sample_points);
      [vm_compute; reflexivity|].
    right. left.
  - eapply (@add_mode_points_origin small_angle 100 [wpt_negative_zero] sample_points);
      [vm_compute; reflexivity|].
    right. left.
Defined.

(** ** Two waypoints in add mode *)

(** Two waypoints whose insertions go to the same index of a segment that
    has points: the sort keeps them in the order of the waypoints, the second
    is inserted at the same index after the first, and so its block comes
    first in the result.  When the indices differ the order of the two
    waypoints does not matter. *)
Theorem add_mode_same_index_order {L : Libm} (maxdist : float)
    (points : list GPXTrackPoint) (w1 w2 : GPXWaypoint) (x1 x2 : insertion) :
  add_insertion maxdist points w1 = Ok (Some x1) ->
  add_insertion maxdist points w2 = Ok (Some x2) ->
  (points <> [] -> x1.1 = x2.1 ->
   process_add_segment maxdist [w1; w2] points
   = Ok (take x1.1 points ++ x2.2 ++ x1.2 ++ drop x1.1 points)) /\
  (x1.1 <> x2.1 ->
   process_add_segment maxdist [w1; w2] points
   = process_add_segment maxdist [w2; w1] points).
Proof.
  intros H1 H2. unfold process_add_segment. simpl. rewrite H1, H2. simpl. split.
  - intros Hne Heq. rewrite Heq, Nat.leb_refl. f_equal.
    pose proof (add_insertion_in_range _ _ _ _ Hne H2) as Hk.
    unfold apply_insertions. simpl. rewrite Heq.
    rewrite (insert_points_in_range _ _ points Hk).
    rewrite insert_points_in_range by (rewrite length_app, length_take; lia).
    rewrite take_app_le, take_take, Nat.min_id by (rewrite length_take; lia).
    rewrite drop_app_ge by (rewrite length_take; lia).
    rewrite length_take, Nat.min_l, Nat.sub_diag by lia. by rewrite drop_0.
  - intros Hne.
    destruct (x2.1 <=? x1.1)%nat eqn:E1, (x1.1 <=? x2.1)%nat eqn:E2; try done.
    + apply Nat.leb_le in E1, E2. lia.
    + apply Nat.leb_gt in E1, E2. lia.
Qed.

Lemma add_mode_same_index_order_witness :
  @process_add_segment small_angle 100 [wpt_start; wpt_far] sample_points
  = Ok [sample_p0; make_bare_point 4e-7 0; sample_p0;
        make_bare_point 1e-7 0; sample_p0; sample_p1].
Proof.
  edestruct (@add_mode_same_index_order small_angle 100 sample_points wpt_start wpt_far)
    as [Hsame _]; [vm_compute; reflexivity | vm_compute; reflexivity |].
  rewrite Hsame; [reflexivity | discriminate | reflexivity].
Defined.

(** ** Runs that change nothing *)

Section WholeRun.
Context {L : Libm}.

Lemma for_each_id {A} (f : A -> result A) (l : list A) :
  (forall x, x ∈ l -> f x = Ok x) -> for_each f l = Ok l.
Proof.
  induction l as [|x rest IH]; intros H; simpl; [done|].
  rewrite H by left. simpl. rewrite IH; [done|]. intros y Hy. apply H. by right.
Qed.

Lemma for_each_segment_id f gpx :
  (forall track segment, track ∈ tracks gpx -> segment ∈ segments track ->
     f (points segment) = Ok (points segment)) ->
  for_each_segment f gpx = Ok gpx.
Proof.
  intros H. unfold for_each_segment. rewrite for_each_id; [by destruct gpx|].
  intros track Ht. rewrite for_each_id; [by destruct track|].
  intros segment Hs. rewrite (H track segment Ht Hs). by destruct segment.
Qed.

Lemma collect_insertions_all_skipped maxdist points wpts :
  (forall wpt, wpt ∈ wpts -> add_insertion maxdist points wpt = Ok None) ->
  collect_insertions maxdist points wpts = Ok [].
Proof.
  induction wpts as [|wpt rest IH]; intros H; simpl; [done|].
  rewrite H by left. simpl. rewrite IH; [done|]. intros w Hw. apply H. by right.
Qed.

Lemma process_move_segment_all_skipped maxdist points wpts :
  (forall wpt, wpt ∈ wpts -> move_waypoint maxdist points wpt = Ok points) ->
  process_move_segment maxdist wpts points = Ok points.
Proof.
  induction wpts as [|wpt rest IH]; intros H; simpl; [done|].
  rewrite H by left. simpl. apply IH. intros w Hw. apply H. by right.
Qed.
End WholeRun.

(** When every waypoint is farther than [maxdist] from every segment (the
    test [dist > maxdist] holds each time), a run returns the document as it
    was, in add mode and in move mode. *)
Theorem nothing_in_range_unchanged {L : Libm} (gpx_data : GPX) (maxdist : float) :
  ((forall track segment wpt,
      track ∈ tracks gpx_data -> segment ∈ segments track ->
      wpt ∈ waypoints gpx_data ->
      exists c, find_closest_on_segment wpt (points segment) = Ok c /\
                (maxdist <? min_dist c)%float = true) ->
   process_add gpx_data maxdist = Ok gpx_data) /\
  ((forall track segment wpt,
      track ∈ tracks gpx_data -> segment ∈ segments track ->
      wpt ∈ waypoints gpx_data ->
      exists d i, find_closest_vertex wpt (points segment) = Ok (d, i) /\
                  (maxdist <? d)%float = true) ->
   process_move gpx_data maxdist = Ok gpx_data).
Proof.
  split; intros H.
  - unfold process_add. destruct (waypoints gpx_data) as [|w ws] eqn:Hw; [done|].
    apply for_each_segment_id. intros track segment Ht Hs.
    unfold process_add_segment. rewrite collect_insertions_all_skipped; [done|].
    intros wpt Hwpt. destruct (H track segment wpt Ht Hs Hwpt) as (c & Hc & Hd).
    by eapply add_insertion_skip.
  - unfold process_move. destruct (waypoints gpx_data) as [|w ws] eqn:Hw; [done|].
    apply for_each_segment_id. intros track segment Ht Hs.
    apply process_move_segment_all_skipped.
    intros wpt Hwpt. destruct (H track segment wpt Ht Hs Hwpt) as (d & i & Hv & Hd).
    by eapply move_waypoint_skip.
Qed.

Lemma nothing_in_range_unchanged_witness :
  @process_add small_angle sample_gpx 0.001 = Ok sample_gpx /\
  @process_move small_angle sample_gpx 0.001 = Ok sample_gpx.
Proof.
  destruct (@nothing_in_range_unchanged small_angle sample_gpx 0.001) as [Hadd Hmove].
  split.
  - apply Hadd. intros track segment wpt Ht Hs Hw.
    repeat (apply elem_of_cons in Ht as [->|Ht]); [|by apply elem_of_nil in Ht].
    repeat (apply elem_of_cons in Hs as [->|Hs]); [| |by apply elem_of_nil in Hs];
      repeat (apply elem_of_cons in Hw as [->|Hw]);
      try (by apply elem_of_nil in Hw);
      eexists; (split; [vm_compute; reflexivity | reflexivity]).
  - apply Hmove. intros track segment wpt Ht Hs Hw.
    repeat (apply elem_of_cons in Ht as [->|Ht]); [|by apply elem_of_nil in Ht].
    repeat (apply elem_of_cons in Hs as [->|Hs]); [| |by apply elem_of_nil in Hs];
      repeat (apply elem_of_cons in Hw as [->|Hw]);
      try (by apply elem_of_nil in Hw);
      eexists _, _; (split; [vm_compute; reflexivity | reflexivity]).
Defined.

(** ** Move mode over a document *)

Section MoveFrame.
Context {L : Libm}.

Lemma moved_within_trans wpts p p' p'' :
  moved_within wpts p p' -> moved_within wpts p' p'' -> moved_within wpts p p''.
Proof.
  intros [->|(w & Hw & ->)] [->|(w' & Hw' & ->)]; [by left | right | right | right].
  - by exists w'.
  - by exists w.
  - by exists w'.
Qed.

Lemma move_waypoint_moved_within maxdist pts wpt pts' :
  move_waypoint maxdist pts wpt = Ok pts' ->
  Forall2 (moved_within [wpt]) pts pts'.
Proof.
  assert (Hrefl : Forall2 (moved_within [wpt]) pts pts).
  { apply Forall_Forall2_diag, Forall_forall. intros p _. by left. }
  intros H. unfold move_waypoint in H. inv_bind H. destruct a as [d i].
  destruct (maxdist <? d)%float; [by injection H as <-|].
  inv_bind H. injection H as <-. rename a into p. apply py_index_Ok in E0.
  rewrite <- (list_insert_id pts i p E0) at 1.
  apply Forall2_insert; [done|]. right. exists wpt. split; [by left | done].
Qed.

Lemma process_move_segment_moved_within maxdist wpts : forall pts pts',
  process_move_segment maxdist wpts pts = Ok pts' ->
  Forall2 (moved_within wpts) pts pts'.
Proof.
  induction wpts as [|wpt rest IH]; intros pts pts' H; simpl in H.
  - injection H as <-. apply Forall_Forall2_diag, Forall_forall. intros p _. by left.
  - inv_bind H. apply move_waypoint_moved_within in E. apply IH in H.
    eapply Forall2_trans; [|exact E|exact H].
    intros p p' p'' H1 H2. apply (moved_within_trans _ p p' p'').
    + destruct H1 as [->|(w & Hw & ->)]; [by left|].
      right. exists w. split; [|done]. apply list_elem_of_singleton in Hw as ->. by left.
    + destruct H2 as [->|(w & Hw & ->)]; [by left|].
      right. exists w. split; [by right | done].
Qed.
End MoveFrame.

(** A move-mode run keeps the waypoints, the tracks and segments and the
    number of points of every segment; every point keeps its attributes, and
    it is either unchanged or at the latitude and longitude of one of the
    waypoints. *)
Theorem move_mode_document_frame {L : Libm} (gpx_data gpx' : GPX) (maxdist : float) :
  process_move gpx_data maxdist = Ok gpx' ->
  waypoints gpx' = waypoints gpx_data /\
  Forall2 (fun track track' =>
    Forall2 (fun segment segment' =>
      Forall2 (fun p p' =>
          attributes p' = attributes p /\
          (p' = p \/
           exists w, w ∈ waypoints gpx_data /\
             latitude p' = wpt_latitude w /\ longitude p' = wpt_longitude w))
        (points segment) (points segment'))
      (segments track) (segments track'))
    (tracks gpx_data) (tracks gpx').
Proof.
  intros H. unfold process_move in H.
  assert (Hpt : forall p p', moved_within (waypoints gpx_data) p p' ->
    attributes p' = attributes p /\
    (p' = p \/ exists w, w ∈ waypoints gpx_data /\
       latitude p' = wpt_latitude w /\ longitude p' = wpt_longitude w)).
  { intros p p' [->|(w & Hw & ->)]; [split; [done | by left]|].
    split; [done|]. right. by exists w. }
  destruct (waypoints gpx_data) as [|w ws] eqn:Hw.
  - injection H as <-. split; [done|].
    apply Forall_Forall2_diag, Forall_forall. intros track _.
    apply Forall_Forall2_diag, Forall_forall. intros segment _.
    apply Forall_Forall2_diag, Forall_forall. intros p _. split; [done | by left].
  - apply for_each_segment_Ok in H as [Hwp H]. split; [congruence|].
    eapply Forall2_impl; [exact H|]. intros track track' Ht. cbv beta in Ht.
    eapply Forall2_impl; [exact Ht|]. intros segment segment' Hs. cbv beta in Hs.
    apply process_move_segment_moved_within in Hs.
    eapply Forall2_impl; [exact Hs|]. intros p p' Hp. by apply Hpt.
Qed.

Lemma move_mode_document_frame_witness :
  exists gpx',
    @process_move small_angle sample_gpx 100 = Ok gpx' /\
    waypoints gpx' = waypoints sample_gpx /\
    Forall2 (fun track track' =>
      Forall2 (fun segment segment' =>
        Forall2 (fun p p' =>
            attributes p' = attributes p /\
            (p' = p \/
             exists w, w ∈ waypoints sample_gpx /\
               latitude p' = wpt_latitude w /\ longitude p' = wpt_longitude w))
          (points segment) (points segment'))
        (segments track) (segments track'))
      (tracks sample_gpx) (tracks gpx').
Proof.
  eexists. split; [vm_compute; reflexivity|].
  apply (@move_mode_document_frame small_angle sample_gpx _ 100).
  vm_compute. reflexivity.
Defined.

(** ** Moving twice *)

Section MoveTwice.
Context {L : Libm} {HL : LibmLaws L}.

Lemma scan_vertices_total wpt pts : forall i best,
  (forall p, p ∈ pts -> exists dj, vertex_dist wpt p = Ok dj) ->
  exists out, scan_vertices wpt i pts best = Ok out.
Proof.
  induction pts as [|pt rest IH]; intros i best H; simpl; [by eexists|].
  destruct (H pt) as [d Hd]; [left|]. unfold vertex_dist in Hd. rewrite Hd. simpl.
  apply IH. intros p Hp. apply H. by right.
Qed.

(** A vertex moved to the waypoint is at distance 0 from it. *)
Lemma vertex_dist_moved wpt p :
  is_finite (wpt_latitude wpt) = true -> is_finite (wpt_longitude wpt) = true ->
  vertex_dist wpt (moved_to wpt p) = Ok 0%float.
Proof.
  intros F1 F2. unfold vertex_dist. simpl.
  apply haversine_equal; try done; by apply eqb_refl_finite.
Qed.
End MoveTwice.

(** Moving a waypoint's nearest vertex is idempotent: on points with finite
    coordinates, the step of lines 186-190 repeated for the same waypoint on
    its own result returns that result.  The moved vertex is at distance 0,
    and it is found again: no other vertex is nearer, and none before it is as
    near. *)
Theorem move_waypoint_idempotent {L : Libm} {HL : LibmLaws L} (maxdist : float)
    (pts pts' : list GPXTrackPoint) (wpt : GPXWaypoint) :
  is_finite (wpt_latitude wpt) = true -> is_finite (wpt_longitude wpt) = true ->
  Forall (fun p => is_finite (latitude p) = true /\ is_finite (longitude p) = true) pts ->
  move_waypoint maxdist pts wpt = Ok pts' ->
  move_waypoint maxdist pts' wpt = Ok pts'.
Proof.
  intros F1 F2 Hfin H. pose proof H as Hfirst.
  unfold move_waypoint in H. inv_bind H. destruct a as [d i].
  destruct (maxdist <? d)%float eqn:Hd; [by injection H as <-|].
  inv_bind H. rename a into p. apply py_index_Ok in E0.
  change {| latitude := _; longitude := _; elevation := _; time := _; other := _ |}
    with (moved_to wpt p) in H.
  injection H as <-. set (pts' := <[i := moved_to wpt p]> pts).
  assert (Hnonneg : forall q dq, q ∈ pts -> vertex_dist wpt q = Ok dq ->
            (0 <=? dq)%float = true /\ (dq <? infinity)%float = true).
  { intros q dq Hq Hdq. rewrite Forall_forall in Hfin. destruct (Hfin q Hq) as [G1 G2].
    unfold vertex_dist in Hdq.
    split; [exact (haversine_nonneg _ _ _ _ _ F1 F2 G1 G2 Hdq)
           | exact (haversine_below_infinity _ _ _ _ _ F1 F2 G1 G2 Hdq)]. }
  destruct (find_closest_vertex_scan wpt pts d i E) as [Hmin Hat].
  assert (Hdp : vertex_dist wpt p = Ok d).
  { destruct Hat as [[= -> ->]|(q & Hq & Hdq)]; [|simpl in *; congruence].
    destruct (Hmin _ p E0) as (dp & Hdp & Hlt & _).
    destruct (Hnonneg p dp) as [_ Hinf]; [by eapply list_elem_of_lookup_2 | done |].
    simpl in Hlt. congruence. }
  assert (Hi' : pts' !! i = Some (moved_to wpt p)).
  { apply list_lookup_insert_eq. by eapply lookup_lt_Some. }
  destruct (scan_vertices_total wpt pts' 0 (infinity, 0%nat)) as [[d' i'] Hscan].
  { intros q Hq. apply list_elem_of_lookup_1 in Hq as [j Hj].
    destruct (decide (j = i)) as [->|Hne].
    - replace q with (moved_to wpt p) by congruence. eexists. by apply vertex_dist_moved.
    - unfold pts' in Hj. rewrite list_lookup_insert_ne in Hj by done.
      destruct (Hmin j q Hj) as (dq & Hdq & _). by exists dq. }
  fold (find_closest_vertex wpt pts') in Hscan.
  destruct (find_closest_vertex_scan wpt pts' d' i' Hscan) as [Hmin' Hat'].
  destruct (Hmin' i _ Hi') as (d0 & Hd0 & Hlt0 & Hfirst0).
  rewrite vertex_dist_moved in Hd0 by done. injection Hd0 as <-.
  unfold move_waypoint. rewrite Hscan. simpl.
  destruct (maxdist <? d')%float; [done|].
  destruct Hat' as [[= -> ->]|(q & Hq & Hdq)]; [done|]. simpl in Hq, Hdq.
  apply py_index_Ok in Hq as Hq'. rewrite Hq'. simpl. f_equal.
  apply list_insert_id. rewrite Hq. f_equal.
  destruct (decide (i' = i)) as [->|Hne].
  - replace q with (moved_to wpt p) by congruence. done.
  - exfalso. unfold pts' in Hq. rewrite list_lookup_insert_ne in Hq by done.
    destruct (Hnonneg q d') as [Hq0 _]; [by eapply list_elem_of_lookup_2 | done |].
    destruct (decide (i < i')%nat) as [Hlt|Hge].
    + simpl in Hfirst0. rewrite Hfirst0 in Hq0 by done. done.
    + destruct (Hmin i' q Hq) as (dq & Hdq' & _ & Hfirst').
      replace dq with d' in * by congruence.
      assert (Hle : (d' <=? d)%float = true).
      { apply zero_leb_nonneg; [done | done |].
        by destruct (Hnonneg p d) as [Hd0 _]; [by eapply list_elem_of_lookup_2 | done |]. }
      simpl in Hfirst'. rewrite Hfirst' in Hle by lia. done.
Qed.

Lemma move_waypoint_idempotent_witness :
  @move_waypoint small_angle 100 [moved_to wpt_start sample_p0; sample_p1] wpt_start
  = Ok [moved_to wpt_start sample_p0; sample_p1].
Proof.
  apply (@move_waypoint_idempotent small_angle small_angle_laws 100 sample_points);
    [reflexivity | reflexivity | | vm_compute; reflexivity].
  repeat constructor.
Defined.

(** ** A waypoint at the start of an edge *)

(** [x] is [+0] or [-0]. *)
Lemma eqb_0_spec (x : float) :
  (x =? 0)%float = true <-> exists s, Prim2SF x = S754_zero s.
Proof.
  rewrite FloatAxioms.eqb_spec. change (Prim2SF 0) with (S754_zero false).
  destruct (Prim2SF x) as [s|[]| |[] m e]; simpl; split; try done;
    try (by intros [? ?]); by eexists.
Qed.

Lemma mul_zero_l (x y : float) :
  (x =? 0)%float = true -> is_finite y = true -> (x * y =? 0)%float = true.
Proof.
  rewrite !eqb_0_spec, is_finite_spec, mul_spec. intros [s ->].
  destruct (Prim2SF y) as [sy|sy| |sy my ey]; try done; intros _; by eexists.
Qed.

Lemma add_zero_zero (x y : float) :
  (x =? 0)%float = true -> (y =? 0)%float = true -> (x + y =? 0)%float = true.
Proof.
  rewrite !eqb_0_spec, add_spec. intros [sx ->] [sy ->].
  destruct sx, sy; by eexists.
Qed.

Lemma div_zero_l (x y : float) :
  (x =? 0)%float = true -> is_nan y = false -> (y =? 0)%float = false ->
  (x / y =? 0)%float = true.
Proof.
  intros Hx Hn Hy. apply eqb_0_spec in Hx as [sx Hx].
  assert (Hy' : ~ exists s, Prim2SF y = S754_zero s).
  { rewrite <- eqb_0_spec. by rewrite Hy. }
  rewrite is_nan_spec in Hn. rewrite eqb_0_spec, div_spec, Hx.
  destruct (Prim2SF y) as [sy|sy| |sy my ey]; try done; try by eexists.
  exfalso. apply Hy'. by eexists.
Qed.

Lemma add_zero_r (a z : float) :
  is_finite a = true -> (z =? 0)%float = true -> (a + z =? a)%float = true.
Proof.
  rewrite is_finite_spec. intros Ha [sz Hz]%eqb_0_spec.
  rewrite FloatAxioms.eqb_spec, add_spec, Hz. unfold SFeqb.
  destruct (Prim2SF a) as [sa|sa| |sa ma ea] eqn:E; try done.
  - by destruct sa, sz.
  - simpl. destruct sa; by rewrite Z.compare_refl, Pos.compare_cont_refl.
Qed.

(** [max(0.0, min(1.0, t))] of a zero is [0.0]. *)
Lemma clamp_zero (z : float) : (z =? 0)%float = true -> py_max 0 (py_min 1 z) = 0%float.
Proof.
  intros [s Hz]%eqb_0_spec. unfold py_max, py_min.
  assert ((z <? 1)%float = true) as ->.
  { rewrite ltb_spec, Hz. by destruct s. }
  assert ((0 <? z)%float = false) as ->; [|done].
  rewrite ltb_spec, Hz. by destruct s.
Qed.

(** A sum of two squares of finite numbers is a number. *)
Lemma add_squares_not_nan (x y : float) :
  is_finite x = true -> is_finite y = true ->
  is_nan (x * x + y * y)%float = false.
Proof.
  intros Hx Hy.
  assert (Hsq : forall u, is_finite u = true -> sf_signed false (Prim2SF (u * u))).
  { intros u. rewrite is_finite_spec, mul_spec.
    destruct (Prim2SF u) as [s|s| |s m e]; try done; intros _.
    - by destruct s.
    - simpl. replace (xorb s s) with false by (by destruct s).
      apply bra_signed. lia. }
  pose proof (Hsq x Hx) as Sx. pose proof (Hsq y Hy) as Sy.
  rewrite is_nan_spec, add_spec.
  destruct (Prim2SF (x * x)) as [sx|sx| |sx mx ex] eqn:Ex; try done;
    destruct (Prim2SF (y * y)) as [sy|sy| |sy my ey] eqn:Ey; try done;
    simpl in Sx, Sy; subst; try done.
  pose proof (add_finite_not_nan (x * x) (y * y)) as H.
  rewrite is_finite_spec, !is_nan_spec, add_spec, Ex, Ey in H. by apply H.
Qed.

(** A waypoint at the first endpoint [a] of an edge projects onto [a] with
    [t = 0]: as long as the scaled longitude of [a] and the differences the
    function forms between [b] and [a] are finite, the numerator of [t] is a
    zero, and the point returned equals [a].  ([t = 0] is classified as the
    vertex [a] by lines 92-93.) *)
Theorem project_onto_segment_at_start {L : Libm} (alat alon blat blon c : float) :
  math_cos (math_radians ((alat + blat) / 2)%float) = Ok c ->
  is_finite alat = true -> is_finite alon = true ->
  is_finite (alon * c)%float = true ->
  is_finite (blon * c - alon * c)%float = true ->
  is_finite (blat - alat)%float = true ->
  is_finite (blon - alon)%float = true ->
  exists plat plon,
    project_onto_segment alat alon alat alon blat blon = Ok (plat, plon, 0%float) /\
    (plat =? alat)%float = true /\ (plon =? alon)%float = true.
Proof.
  intros Hc Flat Flon Fx Fdx Fdy Fdl. unfold project_onto_segment. rewrite Hc. simpl.
  destruct (_ =? 0)%float eqn:Hlen.
  { exists alat, alon. split_and!; [done | by apply eqb_refl_finite..]. }
  rewrite !sub_diag by done.
  assert (Ht : (((0 * (blon * c - alon * c) + 0 * (blat - alat)) /
                 ((blon * c - alon * c) * (blon * c - alon * c)
                  + (blat - alat) * (blat - alat))) =? 0)%float = true).
  { apply div_zero_l; [|by apply add_squares_not_nan | done].
    apply add_zero_zero; by apply mul_zero_l. }
  rewrite (clamp_zero _ Ht).
  eexists _, _. split_and!; [done | |]; apply add_zero_r; try done; by apply mul_zero_l.
Qed.

Lemma project_onto_segment_at_start_witness :
  exists plat plon,
    @project_onto_segment small_angle 0 0 0 0 0 1.6e-6 = Ok (plat, plon, 0%float) /\
    (plat =? 0)%float = true /\ (plon =? 0)%float = true.
Proof.
  apply (@project_onto_segment_at_start small_angle 0 0 0 1.6e-6 1); reflexivity.
Defined.

(** ** What [main] writes *)

(** Whatever the arguments, the document and the files that exist: [main]
    writes a file only when [-f] is given, and then the file is the one
    [output_name] resolves [-f] to, it does not exist or [--overwrite] is
    given, and the only other effect is the line on stderr that names it.
    [main] writes to stdout only when [-f] is absent, and does nothing else
    then.  What it writes is the XML of the processed document, which then has
    tracks and waypoints, and the run returns.  It exits with a code only
    after processing a document with tracks and waypoints, when the resolved
    output file exists and [--overwrite] is absent: the code is 1 and the one
    effect is the error line on stderr that names that file. *)
Theorem main_output_guarded {L : Libm} {H : Host} (args : Args) (gpx_data : GPX)
    (path_exists : string -> bool) (effects : list Effect) (exit : Exit) :
  main args gpx_data path_exists = (effects, exit) ->
  (forall path text, WriteFile path text ∈ effects ->
     (path_exists path = false \/ arg_overwrite args = true) /\
     (exists f, arg_f args = Some f /\ output_name args f = Ok path) /\
     effects = [WriteFile path text; PrintErr ("Output written to " +:+ path)] /\
     exit = Return /\
     tracks gpx_data <> [] /\ waypoints gpx_data <> [] /\
     exists gpx', processed args gpx_data = Ok gpx' /\ text = to_xml gpx') /\
  (forall text, WriteOut text ∈ effects ->
     arg_f args = None /\ effects = [WriteOut text] /\ exit = Return /\
     tracks gpx_data <> [] /\ waypoints gpx_data <> [] /\
     exists gpx', processed args gpx_data = Ok gpx' /\ text = to_xml gpx') /\
  (forall code, exit = SysExit code ->
     code = 1%Z /\ arg_overwrite args = false /\
     tracks gpx_data <> [] /\ waypoints gpx_data <> [] /\
     (exists gpx', processed args gpx_data = Ok gpx') /\
     exists f outfile,
       arg_f args = Some f /\ output_name args f = Ok outfile /\
       path_exists outfile = true /\
       effects = [PrintErr ("Error: " +:+ outfile +:+
                    " already exists. Use --overwrite to replace it.")]).
Proof.
  unfold main, processed. intros Hmain.
  destruct (tracks gpx_data) as [|t ts].
  { injection Hmain as <- <-. split_and!; [| |done].
    - intros path text Hin. apply list_elem_of_singleton in Hin. done.
    - intros text Hin. apply list_elem_of_singleton in Hin. done. }
  destruct (waypoints gpx_data) as [|w ws].
  { injection Hmain as <- <-. split_and!; [| |done].
    - intros path text Hin. apply list_elem_of_singleton in Hin. done.
    - intros text Hin. apply list_elem_of_singleton in Hin. done. }
  destruct (match arg_m args with Add => _ | Move => _ end) as [gpx'|e].
  2: { injection Hmain as <- <-. split_and!; [| |done].
       - intros path text Hin. by apply elem_of_nil in Hin.
       - intros text Hin. by apply elem_of_nil in Hin. }
  destruct (arg_f args) as [f|].
  2: { injection Hmain as <- <-. split_and!; [| |done].
       - intros path text Hin. apply list_elem_of_singleton in Hin. done.
       - intros text Hin. apply list_elem_of_singleton in Hin as [= ->].
         split_and!; try done. by exists gpx'. }
  destruct (output_name args f) as [outfile|e] eqn:Hname.
  2: { injection Hmain as <- <-. split_and!; [| |done].
       - intros path text Hin. by apply elem_of_nil in Hin.
       - intros text Hin. by apply elem_of_nil in Hin. }
  destruct (path_exists outfile && negb (arg_overwrite args)) eqn:Hguard;
    injection Hmain as <- <-.
  - apply andb_true_iff in Hguard as [Hex Hov]. apply negb_true_iff in Hov.
    split_and!.
    + intros path text Hin. apply list_elem_of_singleton in Hin. done.
    + intros text Hin. apply list_elem_of_singleton in Hin. done.
    + intros code [= <-].
      split_and!; [done | done | done | done | by exists gpx' |].
      by exists f, outfile.
  - apply andb_false_iff in Hguard. rewrite negb_false_iff in Hguard.
    split_and!; [| |done].
    + intros path text Hin. apply elem_of_cons in Hin as [[= -> ->]|Hin].
      * split_and!; try done; [by exists f | by exists gpx'].
      * apply list_elem_of_singleton in Hin. done.
    + intros text Hin. apply elem_of_cons in Hin as [Hin|Hin]; [done|].
      apply list_elem_of_singleton in Hin. done.
Qed.

Lemma main_output_guarded_witness :
  @main small_angle sample_host sample_args sample_gpx (String.eqb "out.gpx")
  = ([PrintErr "Error: out.gpx already exists. Use --overwrite to replace it."],
     SysExit 1) /\
  @main small_angle sample_host sample_args sample_gpx (fun _ => false)
  = ([WriteFile "out.gpx" "1"; PrintErr "Output written to out.gpx"], Return).
Proof.
  split.
  - edestruct (@main_output_guarded small_angle sample_host sample_args sample_gpx
                 (String.eqb "out.gpx")) as (_ & _ & Hexit);
      [apply surjective_pairing|].
    edestruct Hexit as (Hcode & _ & _ & _ & _ & f & outfile & Hf & Hname & _ & Heff);
      [vm_compute; reflexivity|].
    injection Hf as <-. injection Hname as <-.
    rewrite (surjective_pairing (main _ _ _)), Heff. vm_compute. reflexivity.
  - edestruct (@main_output_guarded small_angle sample_host sample_args sample_gpx
                 (fun _ => false)) as (Hfile & _ & _); [apply surjective_pairing|].
    edestruct (Hfile "out.gpx" "1") as (_ & _ & Heff & Hret & _);
      [vm_compute; left|].
    rewrite (surjective_pairing (main _ _ _)), Heff, Hret. reflexivity.
Defined.

(** With [-f] given without a name the file name holds [int(args.d)] or
    [args.d]: when [-d] is infinite or not a number, computing it raises
    OverflowError resp. ValueError after the document was processed, and
    nothing is written.  For a finite [-d] the name is computed. *)
Theorem main_default_name_needs_finite {L : Libm} {H : Host} (args : Args)
    (gpx_data gpx' : GPX) (path_exists : string -> bool) :
  tracks gpx_data <> [] -> waypoints gpx_data <> [] ->
  processed args gpx_data = Ok gpx' ->
  arg_f args = Some EmptyString ->
  (is_finite (arg_d args) = false ->
   main args gpx_data path_exists
   = ([], Uncaught (if is_nan (arg_d args) then ValueError else OverflowError))) /\
  (is_finite (arg_d args) = true ->
   exists outfile, output_name args EmptyString = Ok outfile).
Proof.
  intros Ht Hw Hrun Hf. unfold main. unfold processed in Hrun.
  destruct (tracks gpx_data) as [|t ts]; [done|].
  destruct (waypoints gpx_data) as [|w ws]; [done|].
  rewrite Hrun, Hf. unfold output_name, py_int.
  rewrite is_finite_spec, is_nan_spec. destruct (splitext (arg_i args)) as [base ext].
  split; intros Hd.
  - by destruct (Prim2SF (arg_d args)).
  - destruct (Prim2SF (arg_d args)); try done; simpl; by eexists.
Qed.

Lemma main_default_name_needs_finite_witness :
  @main small_angle sample_host
    {| arg_i := "in.gpx"; arg_d := infinity; arg_m := Add;
       arg_f := Some EmptyString; arg_overwrite := false |}
    sample_gpx (fun _ => false)
  = ([], Uncaught OverflowError).
Proof.
  edestruct (@main_default_name_needs_finite small_angle sample_host
    {| arg_i := "in.gpx"; arg_d := infinity; arg_m := Add;
       arg_f := Some EmptyString; arg_overwrite := false |}
    sample_gpx) as [Hraise _];
    [discriminate | discriminate | vm_compute; reflexivity | reflexivity |].
  apply Hraise. reflexivity.
Defined.
